(** * k8s-ui: the cluster session manager and the exec bridge

    A shallow embedding of [internal/kube/manager.go] and of the exec part of
    [internal/web/handlers_pods.go], with the properties of the cluster
    session manager, of the terminal-size queue and of the two pumps of the
    exec bridge.

    What lives outside the process (the kubeconfig files, the service-account
    directory, the API server, the websocket peer) is a record of oracles, one
    field per library call of the source. *)

From stdpp Require Import base option list sorting strings gmap.
From Stdlib Require Import Ascii NArith ZArith Lia.

Local Open Scope string_scope.
Local Open Scope list_scope.
Local Open Scope nat_scope.

(** Go's [error] values are carried as their message; [fmt.Errorf] with [%w]
    appends the message of the wrapped error. *)
Definition error := string.

Inductive result (A : Type) : Type :=
| Ok (a : A)
| Err (err : error).
Arguments Ok {A} a.
Arguments Err {A} err.

(** * internal/kube/manager.go *)
Module kube.

(** [api.Context]; only the fields a kubeconfig context names. *)
Record ApiContext := {
  Cluster : string;
  AuthInfo : string;
  ctxNamespace : string;
}.

(** [api.Config]: the context table and the name of the current context. *)
Record Config := {
  Contexts : gmap string ApiContext;
  CurrentContext : string;
}.

(** The zero value of [api.Config]. *)
Definition zeroConfig : Config := {| Contexts := ∅; CurrentContext := "" |}.

(** [clientcmd.ClientConfigLoadingRules]: an explicit path, or the default
    rules of [clientcmd.NewDefaultClientConfigLoadingRules]. *)
Inductive LoadingRules :=
| ExplicitPath (path : string)
| DefaultClientConfigLoadingRules.

(** [clientcmd.ConfigOverrides], of which the code sets [CurrentContext] only. *)
Record ConfigOverrides := { overrideCurrentContext : string }.

(** A deferred-loading [clientcmd.ClientConfig] is determined by the loading
    rules and the overrides it was built from. *)
Record ClientConfig := {
  loadingRules : LoadingRules;
  overrides : ConfigOverrides;
}.

Definition NewNonInteractiveDeferredLoadingClientConfig
    (rules : LoadingRules) (ov : ConfigOverrides) : ClientConfig :=
  {| loadingRules := rules; overrides := ov |}.

Section manager.
(** [rest.Config] and [kubernetes.Interface] are handles of client-go. *)
Context {RestConfig Clientset : Type}.

(** The library calls of manager.go. *)
Record World := {
  rest_InClusterConfig : result RestConfig;
  (* os.ReadFile("/var/run/secrets/kubernetes.io/serviceaccount/namespace") *)
  os_ReadFile_serviceaccount_namespace : result string;
  homedir_HomeDir : string;
  os_Getenv_KUBECONFIG : string;
  kubernetes_NewForConfig : RestConfig → result Clientset;
  cc_RawConfig : ClientConfig → result Config;
  (* clientConfig.Namespace(): the namespace and the error; the middle
     result is discarded by every caller *)
  cc_Namespace : ClientConfig → result string;
  cc_ClientConfig : ClientConfig → result RestConfig;
}.

(** [type Manager struct]; the mutex is the atomicity of the operations
    below. A nil [clientset] or [clientConfig] is [None]. *)
Record Manager := {
  clientset : option Clientset;
  namespace : string;
  rawConfig : Config;
  clientConfig : option ClientConfig;
  isLocal : bool;
}.

Definition set_clientset (c : option Clientset) (m : Manager) : Manager :=
  {| clientset := c; namespace := namespace m; rawConfig := rawConfig m;
     clientConfig := clientConfig m; isLocal := isLocal m |}.
Definition set_namespace (ns : string) (m : Manager) : Manager :=
  {| clientset := clientset m; namespace := ns; rawConfig := rawConfig m;
     clientConfig := clientConfig m; isLocal := isLocal m |}.
Definition set_rawConfig (c : Config) (m : Manager) : Manager :=
  {| clientset := clientset m; namespace := namespace m; rawConfig := c;
     clientConfig := clientConfig m; isLocal := isLocal m |}.
Definition set_clientConfig (c : option ClientConfig) (m : Manager) : Manager :=
  {| clientset := clientset m; namespace := namespace m; rawConfig := rawConfig m;
     clientConfig := c; isLocal := isLocal m |}.
Definition set_isLocal (b : bool) (m : Manager) : Manager :=
  {| clientset := clientset m; namespace := namespace m; rawConfig := rawConfig m;
     clientConfig := clientConfig m; isLocal := b |}.
Definition set_CurrentContext (name : string) (c : Config) : Config :=
  {| Contexts := Contexts c; CurrentContext := name |}.

(** [ns, _, err := cc.Namespace(); if err == nil && ns != "" { ns } else
    { "default" }], the pattern of lines 84-89 and 182-187. *)
Definition namespaceOrDefault (r : result string) : string :=
  match r with
  | Ok ns => if decide (ns ≠ "") then ns else "default"
  | Err _ => "default"
  end.

(** [filepath.Join(home, ".kube", "config")] for a non-empty [home]; the
    cleaning of the joined path is not modelled, the path only names the
    file the loader reads. *)
Definition kubeconfigPath (home : string) : string := home +:+ "/.kube/config".

Definition NewManager (w : World) (initialNamespace : string) : result Manager :=
  let m := {| clientset := None; namespace := initialNamespace;
              rawConfig := zeroConfig; clientConfig := None; isLocal := false |} in
  match rest_InClusterConfig w with
  | Ok config =>
      let m := set_isLocal false m in
      let m :=
        if decide (namespace m = "") then
          match os_ReadFile_serviceaccount_namespace w with
          | Ok data => set_namespace data m
          | Err _ => set_namespace "default" m
          end
        else m in
      match kubernetes_NewForConfig w config with
      | Err err => Err ("failed to create in-cluster clientset: " +:+ err)
      | Ok cs => Ok (set_clientset (Some cs) m)
      end
  | Err _ =>
      let m := set_isLocal true m in
      let kubeconfig :=
        if decide (homedir_HomeDir w ≠ "") then kubeconfigPath (homedir_HomeDir w)
        else os_Getenv_KUBECONFIG w in
      if decide (kubeconfig = "") then
        Err "could not find in-cluster config and no kubeconfig found"
      else
        let cc := NewNonInteractiveDeferredLoadingClientConfig
                    (ExplicitPath kubeconfig) {| overrideCurrentContext := "" |} in
        let m := set_clientConfig (Some cc) m in
        match cc_RawConfig w cc with
        | Err err => Err ("failed to load raw kubeconfig: " +:+ err)
        | Ok raw =>
            let m := set_rawConfig raw m in
            let m :=
              if decide (namespace m = "") then
                set_namespace (namespaceOrDefault (cc_Namespace w cc)) m
              else m in
            match cc_ClientConfig w cc with
            | Err err => Err ("failed to create rest config: " +:+ err)
            | Ok restConfig =>
                match kubernetes_NewForConfig w restConfig with
                | Err err => Err ("failed to create clientset: " +:+ err)
                | Ok cs => Ok (set_clientset (Some cs) m)
                end
            end
        end
  end.

Definition Client (m : Manager) : option Clientset := clientset m.
Definition Namespace (m : Manager) : string := namespace m.
Definition SetNamespace (ns : string) (m : Manager) : Manager := set_namespace ns m.

(** The client config [SwitchContext] builds for [name]: default loading
    rules, current context overridden. *)
Definition switchClientConfig (name : string) : ClientConfig :=
  NewNonInteractiveDeferredLoadingClientConfig
    DefaultClientConfigLoadingRules {| overrideCurrentContext := name |}.

(** [SwitchContext]: the manager after the call and the returned error
    ([None] is nil). Every assignment to a field of [m] is kept where the
    source has it. *)
Definition SwitchContext (w : World) (name : string) (m : Manager)
    : Manager * option error :=
  if negb (isLocal m) then
    (m, Some "cannot switch context in in-cluster mode")
  else
    match Contexts (rawConfig m) !! name with
    | None => (m, Some ("context " +:+ name +:+ " not found"))
    | Some _ =>
        let m := set_rawConfig (set_CurrentContext name (rawConfig m)) m in
        let clientConfig := switchClientConfig name in
        match cc_ClientConfig w clientConfig with
        | Err err =>
            (m, Some ("failed to create rest config for context " +:+ name
                        +:+ ": " +:+ err))
        | Ok restConfig =>
            match kubernetes_NewForConfig w restConfig with
            | Err err =>
                (m, Some ("failed to create clientset for context " +:+ name
                            +:+ ": " +:+ err))
            | Ok cs =>
                let m := set_clientset (Some cs) m in
                let m := set_namespace
                           (namespaceOrDefault (cc_Namespace w clientConfig)) m in
                (m, None)
            end
        end
    end.

(** ** Calls under the lock

    Every method takes [m.mu] for its whole body, so a concurrent execution
    is an interleaving of whole calls. *)
Inductive call :=
| CallClient
| CallNamespace
| CallSetNamespace (ns : string)
| CallSwitchContext (w : World) (name : string).


Definition exec_call (c : call) (m : Manager) : Manager :=
  match c with
  | CallClient | CallNamespace => m
  | CallSetNamespace ns => SetNamespace ns m
  | CallSwitchContext w name => fst (SwitchContext w name m)
  end.

Definition run (cs : list call) (m : Manager) : Manager :=
  foldl (λ m c, exec_call c m) m cs.



(** The pair a reader would get from one manager state. *)
Definition snapshot (m : Manager) : option Clientset * string :=
  (Client m, Namespace m).

(** The client and the namespace [SwitchContext] installs for [name]. *)
Definition context_pair (w : World) (name : string) (p : option Clientset * string)
    : Prop :=
  ∃ restConfig cs,
    cc_ClientConfig w (switchClientConfig name) = Ok restConfig
    ∧ kubernetes_NewForConfig w restConfig = Ok cs
    ∧ p = (Some cs, namespaceOrDefault (cc_Namespace w (switchClientConfig name))).

End manager.

Arguments World : clear implicits.
Arguments Manager : clear implicits.
Arguments call : clear implicits.

(** ** Contexts and IsLocal *)

(** The order of [sort.Strings]: strings compared byte by byte. *)
Definition string_le (a b : string) : Prop := String.leb a b = true.

#[global] Instance string_le_dec (a b : string) : Decision (string_le a b) :=
  decide (String.leb a b = true).

(** [sort.Strings]. A sorted list of strings is determined by its elements,
    so the algorithm does not show in the result. *)
Definition sort_Strings (names : list string) : list string :=
  merge_sort string_le names.

Section contexts.
Context {Clientset : Type}.

Definition IsLocal (m : Manager Clientset) : bool := isLocal m.

(** [Contexts], given the order in which the range over the map
    [m.rawConfig.Contexts] yields its keys. *)
Definition Contexts_ranging (keys : list string) (m : Manager Clientset)
    : list string * string :=
  if negb (isLocal m) then ([], "")
  else
    let contexts := foldl (λ contexts name, contexts ++ [name]) [] keys in
    (sort_Strings contexts, CurrentContext (rawConfig m)).

(** [Contexts], ranging over the keys in the order of the map's list. *)
Definition Manager_Contexts (m : Manager Clientset) : list string * string :=
  Contexts_ranging (map_to_list (Contexts (rawConfig m))).*1 m.

End contexts.


End kube.

(** * internal/web/handlers_pods.go: the exec bridge *)
Module web.

(** [type TerminalMessage struct]; [Type_] is the field [Type]. [Rows] and
    [Cols] are uint16 and are only copied. *)
Record TerminalMessage := {
  Type_ : string;
  Data : string;
  Rows : N;
  Cols : N;
}.

(** [remotecommand.TerminalSize]. *)
Record TerminalSize := {
  Width : N;
  Height : N;
}.

(** [TerminalMessage{Type: "output", Data: data}]. *)
Definition output_frame (data : string) : TerminalMessage :=
  {| Type_ := "output"; Data := data; Rows := 0; Cols := 0 |}.

(** ** Channels *)

(** A Go channel: the buffered values (oldest first), the capacity, and
    whether [close] was called on it. *)
Record chan (A : Type) := {
  chan_buf : list A;
  chan_cap : nat;
  chan_closed : bool;
}.
Arguments chan_buf {A} c.
Arguments chan_cap {A} c.
Arguments chan_closed {A} c.

(** [make(chan A, cap)]. *)
Definition make_chan {A} (cap : nat) : chan A :=
  {| chan_buf := []; chan_cap := cap; chan_closed := false |}.

Inductive send_outcome (A : Type) :=
| Sent (c : chan A)
| SendBlocks
| SendPanics.
Arguments Sent {A} c.
Arguments SendBlocks {A}.
Arguments SendPanics {A}.

(** [c <- v]: panics on a closed channel, blocks when the buffer is full. *)
Definition chan_send {A} (v : A) (c : chan A) : send_outcome A :=
  if chan_closed c then SendPanics
  else if List.length (chan_buf c) <? chan_cap c then
    Sent {| chan_buf := chan_buf c ++ [v]; chan_cap := chan_cap c;
            chan_closed := chan_closed c |}
  else SendBlocks.

Inductive recv_outcome (A : Type) :=
| Received (v : A) (c : chan A)
| RecvClosed
| RecvBlocks.
Arguments Received {A} v c.
Arguments RecvClosed {A}.
Arguments RecvBlocks {A}.

(** [v, ok := <-c]: a buffered value first; on an empty channel [ok] is false
    if the channel is closed, and the receive blocks otherwise. *)
Definition chan_recv {A} (c : chan A) : recv_outcome A :=
  match chan_buf c with
  | v :: rest =>
      Received v {| chan_buf := rest; chan_cap := chan_cap c;
                    chan_closed := chan_closed c |}
  | [] => if chan_closed c then RecvClosed else RecvBlocks
  end.

(** ** terminalSizeQueue *)

Inductive next_outcome :=
| NextSize (size : TerminalSize) (q : chan TerminalSize)
| NextNil
| NextBlocks.

(** [terminalSizeQueue.Next]: [&size], or nil when the channel is closed. *)
Definition Next (sizeChan : chan TerminalSize) : next_outcome :=
  match chan_recv sizeChan with
  | Received size q => NextSize size q
  | RecvClosed => NextNil
  | RecvBlocks => NextBlocks
  end.

(** ** The request checks of handlePodExecWS *)

(** [strings.Split(s, sep)] for a one-byte separator. *)
Fixpoint Split (s : string) (sep : ascii) : list string :=
  match s with
  | EmptyString => [""]
  | String c rest =>
      if decide (c = sep) then "" :: Split rest sep
      else match Split rest sep with
           | h :: t => String c h :: t
           | [] => [String c ""]
           end
  end.

Record Request := {
  URL_Path : string;
  (* r.URL.Query().Get("container") *)
  Query_container : string;
}.

(** The library calls of the handler before the session runs;
    [manager_Namespace] is what [s.manager.Namespace()] returns. *)
Record Lib := {
  upgrader_Upgrade : result unit;
  manager_RESTConfig : result unit;
  remotecommand_NewSPDYExecutor : result unit;
  manager_Namespace : string;
}.

(** What the handler does that its peer or the cluster can see. *)
Inductive action :=
| HttpError (body : string) (status : nat)
| Upgraded
| WriteJSON (msg : TerminalMessage)
(* lines 461-543: pipes, size channel and pumps are created and the exec
   stream to pod/namespace/container is opened *)
| ExecSession (pod ns container : string)
| ConnClose.

Definition StatusBadRequest : nat := 400.
Definition StatusInternalServerError : nat := 500.

Definition handlePodExecWS (lib : Lib) (r : Request) : list action :=
  let parts := Split (URL_Path r) "/"%char in
  if List.length parts <? 3 then [HttpError "Invalid path" StatusBadRequest]
  else
    let name := nth 2 parts "" in
    let container := Query_container r in
    if decide (container = "") then
      [HttpError "Container is required" StatusBadRequest]
    else
      match upgrader_Upgrade lib with
      | Err err =>
          [HttpError ("Failed to upgrade to WebSocket: " +:+ err)
             StatusInternalServerError]
      | Ok _ =>
          Upgraded ::
          match manager_RESTConfig lib with
          | Err err =>
              [WriteJSON (output_frame ("Error getting REST config: " +:+ err))]
          | Ok _ =>
              match remotecommand_NewSPDYExecutor lib with
              | Err err =>
                  [WriteJSON (output_frame ("Error creating executor: " +:+ err))]
              | Ok _ => [ExecSession name (manager_Namespace lib) container]
              end
          end ++ [ConnClose]
      end.

(** The handler answers with a 400 and does nothing else: no upgrade, no
    session. *)
Definition rejected_before_upgrade (acts : list action) : Prop :=
  ∃ body, acts = [HttpError body StatusBadRequest].

(** The pod name the handler takes from the path. *)
Definition pod_name (r : Request) : string := nth 2 (Split (URL_Path r) "/"%char) "".

(** ** The outbound pump (lines 505-522) *)

(** What [stdoutReader.Read(buf)] returns: an error, or the [n] bytes
    [buf[:n]] with a nil error ([n] may be 0). *)
Inductive read_result :=
| ReadErr
| ReadOk (chunk : string).

(** One iteration of the loop, given what [Read] returns and whether
    [conn.WriteJSON], if it is called, succeeds: the frames handed to
    [WriteJSON] and whether the loop goes on. *)
Definition outbound_iter (r : read_result) (write_ok : bool)
    : list TerminalMessage * bool :=
  match r with
  | ReadErr => ([], false)
  | ReadOk chunk =>
      if 0 <? String.length chunk then ([output_frame chunk], write_ok)
      else ([], true)
  end.






(** ** The running session (lines 461-543)

    Three goroutines share the session: the handler, blocked in
    [exec.StreamWithContext] and then running the termination sequence, the
    inbound pump and the outbound pump; the transport pulls from the size
    queue. The session is a transition system over what they share, one
    event per step a goroutine takes on its own or is released from. *)

(** [json.Unmarshal(message, &msg)]: an error, or the decoded message. *)
Inductive unmarshal_result :=
| UnmarshalError
| Unmarshalled (msg : TerminalMessage).

(** What [conn.ReadMessage] returns. *)
Inductive conn_read :=
| ConnReadErr
| ConnMessage (u : unmarshal_result).

(** Where the inbound goroutine is. *)
Inductive inbound_state :=
| AtSelect                      (* before the select of line 478 *)
| InReadMessage                 (* blocked in conn.ReadMessage, line 482 *)
| InStdinWrite (data : string)  (* blocked in stdinWriter.Write, line 494 *)
| InboundPanicked               (* send on a closed channel, line 497 *)
| InboundExited.                (* returned; stdinWriter.Close() and wg.Done() ran *)

Inductive outbound_state :=
| InStdoutRead                  (* blocked in stdoutReader.Read, line 511 *)
| OutboundExited.

(** Where the handler goroutine is. *)
Inductive handler_pc :=
| InStream                      (* line 525 *)
| AtCloseDone                   (* line 533 *)
| AtStdinReaderClose            (* line 534 *)
| AtStdoutWriterClose           (* line 535 *)
| AtFinalFrame                  (* lines 537-541 *)
| AtWait                        (* line 543 *)
| Returned.

Record Session := {
  handler : handler_pc;
  stream_err : option error;      (* err of line 525 *)
  done : bool;                    (* done is closed *)
  stdinReader_closed : bool;
  stdinWriter_closed : bool;
  stdoutWriter_closed : bool;
  stdin : list string;            (* what the transport has read from stdinReader *)
  sizeChan : chan TerminalSize;
  applied : list (option TerminalSize);  (* the answers of Next, nil as None *)
  inbound : inbound_state;
  outbound : outbound_state;
  sent : list TerminalMessage;    (* the frames handed to conn.WriteJSON *)
}.

Definition set_handler (x : handler_pc) (s : Session) : Session :=
  {| handler := x; stream_err := stream_err s; done := done s;
     stdinReader_closed := stdinReader_closed s;
     stdinWriter_closed := stdinWriter_closed s;
     stdoutWriter_closed := stdoutWriter_closed s; stdin := stdin s;
     sizeChan := sizeChan s; applied := applied s; inbound := inbound s;
     outbound := outbound s; sent := sent s |}.
Definition set_stream_err (x : option error) (s : Session) : Session :=
  {| handler := handler s; stream_err := x; done := done s;
     stdinReader_closed := stdinReader_closed s;
     stdinWriter_closed := stdinWriter_closed s;
     stdoutWriter_closed := stdoutWriter_closed s; stdin := stdin s;
     sizeChan := sizeChan s; applied := applied s; inbound := inbound s;
     outbound := outbound s; sent := sent s |}.
Definition set_done (x : bool) (s : Session) : Session :=
  {| handler := handler s; stream_err := stream_err s; done := x;
     stdinReader_closed := stdinReader_closed s;
     stdinWriter_closed := stdinWriter_closed s;
     stdoutWriter_closed := stdoutWriter_closed s; stdin := stdin s;
     sizeChan := sizeChan s; applied := applied s; inbound := inbound s;
     outbound := outbound s; sent := sent s |}.
Definition set_stdinReader_closed (x : bool) (s : Session) : Session :=
  {| handler := handler s; stream_err := stream_err s; done := done s;
     stdinReader_closed := x;
     stdinWriter_closed := stdinWriter_closed s;
     stdoutWriter_closed := stdoutWriter_closed s; stdin := stdin s;
     sizeChan := sizeChan s; applied := applied s; inbound := inbound s;
     outbound := outbound s; sent := sent s |}.
Definition set_stdinWriter_closed (x : bool) (s : Session) : Session :=
  {| handler := handler s; stream_err := stream_err s; done := done s;
     stdinReader_closed := stdinReader_closed s;
     stdinWriter_closed := x;
     stdoutWriter_closed := stdoutWriter_closed s; stdin := stdin s;
     sizeChan := sizeChan s; applied := applied s; inbound := inbound s;
     outbound := outbound s; sent := sent s |}.
Definition set_stdoutWriter_closed (x : bool) (s : Session) : Session :=
  {| handler := handler s; stream_err := stream_err s; done := done s;
     stdinReader_closed := stdinReader_closed s;
     stdinWriter_closed := stdinWriter_closed s;
     stdoutWriter_closed := x; stdin := stdin s;
     sizeChan := sizeChan s; applied := applied s; inbound := inbound s;
     outbound := outbound s; sent := sent s |}.
Definition set_stdin (x : list string) (s : Session) : Session :=
  {| handler := handler s; stream_err := stream_err s; done := done s;
     stdinReader_closed := stdinReader_closed s;
     stdinWriter_closed := stdinWriter_closed s;
     stdoutWriter_closed := stdoutWriter_closed s; stdin := x;
     sizeChan := sizeChan s; applied := applied s; inbound := inbound s;
     outbound := outbound s; sent := sent s |}.
Definition set_sizeChan (x : chan TerminalSize) (s : Session) : Session :=
  {| handler := handler s; stream_err := stream_err s; done := done s;
     stdinReader_closed := stdinReader_closed s;
     stdinWriter_closed := stdinWriter_closed s;
     stdoutWriter_closed := stdoutWriter_closed s; stdin := stdin s;
     sizeChan := x; applied := applied s; inbound := inbound s;
     outbound := outbound s; sent := sent s |}.
Definition set_applied (x : list (option TerminalSize)) (s : Session) : Session :=
  {| handler := handler s; stream_err := stream_err s; done := done s;
     stdinReader_closed := stdinReader_closed s;
     stdinWriter_closed := stdinWriter_closed s;
     stdoutWriter_closed := stdoutWriter_closed s; stdin := stdin s;
     sizeChan := sizeChan s; applied := x; inbound := inbound s;
     outbound := outbound s; sent := sent s |}.
Definition set_inbound (x : inbound_state) (s : Session) : Session :=
  {| handler := handler s; stream_err := stream_err s; done := done s;
     stdinReader_closed := stdinReader_closed s;
     stdinWriter_closed := stdinWriter_closed s;
     stdoutWriter_closed := stdoutWriter_closed s; stdin := stdin s;
     sizeChan := sizeChan s; applied := applied s; inbound := x;
     outbound := outbound s; sent := sent s |}.
Definition set_outbound (x : outbound_state) (s : Session) : Session :=
  {| handler := handler s; stream_err := stream_err s; done := done s;
     stdinReader_closed := stdinReader_closed s;
     stdinWriter_closed := stdinWriter_closed s;
     stdoutWriter_closed := stdoutWriter_closed s; stdin := stdin s;
     sizeChan := sizeChan s; applied := applied s; inbound := inbound s;
     outbound := x; sent := sent s |}.
Definition set_sent (x : list TerminalMessage) (s : Session) : Session :=
  {| handler := handler s; stream_err := stream_err s; done := done s;
     stdinReader_closed := stdinReader_closed s;
     stdinWriter_closed := stdinWriter_closed s;
     stdoutWriter_closed := stdoutWriter_closed s; stdin := stdin s;
     sizeChan := sizeChan s; applied := applied s; inbound := inbound s;
     outbound := outbound s; sent := x |}.

(** Lines 465-467: [make(chan remotecommand.TerminalSize, 1)] and the send of
    the initial size. *)
Definition initial_size : TerminalSize := {| Width := 120; Height := 30 |}.

Definition initial_sizeChan : chan TerminalSize :=
  match chan_send initial_size (make_chan 1) with
  | Sent q => q
  | SendBlocks | SendPanics => make_chan 1
  end.

(** The session when the handler enters [StreamWithContext]. *)
Definition newSession : Session :=
  {| handler := InStream; stream_err := None; done := false;
     stdinReader_closed := false; stdinWriter_closed := false;
     stdoutWriter_closed := false; stdin := [];
     sizeChan := initial_sizeChan; applied := [];
     inbound := AtSelect; outbound := InStdoutRead; sent := [] |}.

(** The inbound goroutine returns: the deferred [stdinWriter.Close()] and
    [wg.Done()]. *)
Definition inbound_return (s : Session) : Session :=
  set_inbound InboundExited (set_stdinWriter_closed true s).

(** Lines 478-482: the select. [done] closed: return; otherwise the default
    branch calls [conn.ReadMessage]. *)
Definition inbound_select (s : Session) : Session :=
  if done s then inbound_return s else set_inbound InReadMessage s.

(** Lines 487-500 on a message [conn.ReadMessage] returned. A write into
    the stdin pipe returns at once with an error, which is dropped, when the
    read end is closed, and otherwise blocks until the transport reads. *)
Definition inbound_message (u : unmarshal_result) (s : Session) : Session :=
  match u with
  | UnmarshalError => set_inbound AtSelect s
  | Unmarshalled msg =>
      if decide (Type_ msg = "input") then
        if stdinReader_closed s then set_inbound AtSelect s
        else set_inbound (InStdinWrite (Data msg)) s
      else if decide (Type_ msg = "resize") then
        match chan_send {| Width := Cols msg; Height := Rows msg |} (sizeChan s) with
        | Sent q => set_inbound AtSelect (set_sizeChan q s)
        | SendBlocks => set_inbound AtSelect s
        | SendPanics => set_inbound InboundPanicked s
        end
      else set_inbound AtSelect s
  end.

(** Lines 482-485 and on: [conn.ReadMessage] returns. *)
Definition inbound_read (r : conn_read) (s : Session) : Session :=
  match r with
  | ConnReadErr => inbound_return s
  | ConnMessage u => inbound_message u s
  end.

Definition CR : ascii := "013"%char.
Definition LF : ascii := "010"%char.

(** Lines 537-541. *)
Definition final_frame (err : option error) : TerminalMessage :=
  let prefix := String CR (String LF (String CR (String LF "Session ended"))) in
  match err with
  | Some e => output_frame (prefix +:+ ": " +:+ e)
  | None => output_frame (prefix +:+ ".")
  end.

Inductive event :=
| StreamReturns (err : option error)  (* exec.StreamWithContext returns *)
| HandlerStep                         (* the handler runs its next statement *)
| InboundSelect                       (* the inbound pump runs its select *)
| ConnRead (r : conn_read)            (* the pump's conn.ReadMessage returns *)
| StdinRead                           (* the transport reads the pending stdin write *)
| OutboundRead (r : read_result) (write_ok : bool)
                                      (* stdoutReader.Read returns; one iteration *)
| TransportNext.                      (* the transport's call of Next returns *)

(** One step; [None] when the event cannot happen in [s] (the goroutine is
    elsewhere, or blocked). *)
Definition step (s : Session) (e : event) : option Session :=
  match e with
  | StreamReturns err =>
      match handler s with
      | InStream => Some (set_handler AtCloseDone (set_stream_err err s))
      | _ => None
      end
  | HandlerStep =>
      match handler s with
      | InStream => None
      | AtCloseDone => Some (set_handler AtStdinReaderClose (set_done true s))
      | AtStdinReaderClose =>
          let s := set_stdinReader_closed true s in
          let s := match inbound s with
                   | InStdinWrite _ => set_inbound AtSelect s
                   | _ => s
                   end in
          Some (set_handler AtStdoutWriterClose s)
      | AtStdoutWriterClose =>
          Some (set_handler AtFinalFrame (set_stdoutWriter_closed true s))
      | AtFinalFrame =>
          Some (set_handler AtWait
                  (set_sent (sent s ++ [final_frame (stream_err s)]) s))
      | AtWait =>
          match inbound s, outbound s with
          | InboundExited, OutboundExited => Some (set_handler Returned s)
          | _, _ => None
          end
      | Returned => None
      end
  | InboundSelect =>
      match inbound s with
      | AtSelect => Some (inbound_select s)
      | _ => None
      end
  | ConnRead r =>
      match inbound s with
      | InReadMessage => Some (inbound_read r s)
      | _ => None
      end
  | StdinRead =>
      match inbound s with
      | InStdinWrite data =>
          if stdinReader_closed s then None
          else Some (set_inbound AtSelect (set_stdin (stdin s ++ [data]) s))
      | _ => None
      end
  | OutboundRead r write_ok =>
      match outbound s with
      | InStdoutRead =>
          let '(frames, continue) := outbound_iter r write_ok in
          let s := set_sent (sent s ++ frames) s in
          Some (if continue then s else set_outbound OutboundExited s)
      | OutboundExited => None
      end
  | TransportNext =>
      match Next (sizeChan s) with
      | NextSize size q =>
          Some (set_applied (applied s ++ [Some size]) (set_sizeChan q s))
      | NextNil => Some (set_applied (applied s ++ [None]) s)
      | NextBlocks => None
      end
  end.

(** A run: the events in order, [None] as soon as one cannot happen. *)
Fixpoint run (s : Session) (tr : list event) : option Session :=
  match tr with
  | [] => Some s
  | e :: tr =>
      match step s e with
      | Some s' => run s' tr
      | None => None
      end
  end.

Definition reachable (s : Session) : Prop := ∃ tr, run newSession tr = Some s.


(** A resize frame as the client sends it. *)
Definition resize_frame (rows cols : N) : unmarshal_result :=
  Unmarshalled {| Type_ := "resize"; Data := ""; Rows := rows; Cols := cols |}.

Definition input_frame (data : string) : unmarshal_result :=
  Unmarshalled {| Type_ := "input"; Data := data; Rows := 0; Cols := 0 |}.

(** The client sends the input frames [payloads] one after the other; each
    is read by the pump, written into the stdin pipe and read from it by
    the transport before the pump selects again. *)
Definition typing (payloads : list string) : list event :=
  payloads ≫= λ data,
    [ConnRead (ConnMessage (input_frame data)); StdinRead; InboundSelect].

End web.

(** * internal/web/server.go: the two API handlers *)
Module server.
Import kube.

(** What a handler answers: [http.Error] or [http.Redirect]. *)
Inductive response :=
| Error (body : string) (status : nat)
| Redirect (url : string) (status : nat).

Definition StatusFound : nat := 302.
Definition StatusBadRequest : nat := 400.
Definition StatusMethodNotAllowed : nat := 405.
Definition StatusInternalServerError : nat := 500.
Definition MethodPost : string := "POST".

(** The request as the handlers read it: the method and [r.FormValue]. *)
Record Request := {
  Method : string;
  FormValue : string → string;
}.

Section handlers.
Context {RestConfig Clientset : Type}.

(** [handleSwitchContext]: the manager after the request and the answer. *)
Definition handleSwitchContext (w : World RestConfig Clientset) (r : Request)
    (m : Manager Clientset) : Manager Clientset * response :=
  if decide (Method r ≠ MethodPost) then
    (m, Error "Method not allowed" StatusMethodNotAllowed)
  else
    let ctx := FormValue r "context" in
    if decide (ctx = "") then (m, Error "Context is required" StatusBadRequest)
    else
      let '(m, err) := SwitchContext w ctx m in
      match err with
      | Some err =>
          (m, Error ("Failed to switch context: " +:+ err) StatusInternalServerError)
      | None => (m, Redirect "/" StatusFound)
      end.

(** [handleSwitchNamespace]. *)
Definition handleSwitchNamespace (r : Request) (m : Manager Clientset)
    : Manager Clientset * response :=
  if decide (Method r ≠ MethodPost) then
    (m, Error "Method not allowed" StatusMethodNotAllowed)
  else
    let ns := FormValue r "namespace" in
    if decide (ns = "") then (m, Error "Namespace is required" StatusBadRequest)
    else (SetNamespace ns m, Redirect "/" StatusFound).

(** A request to one of the two API routes of [registerRoutes]. *)
Inductive api_request :=
| SwitchContextRequest (w : World RestConfig Clientset) (r : Request)
| SwitchNamespaceRequest (r : Request).

Definition serve (q : api_request) (m : Manager Clientset) : Manager Clientset :=
  match q with
  | SwitchContextRequest w r => (handleSwitchContext w r m).1
  | SwitchNamespaceRequest r => (handleSwitchNamespace r m).1
  end.

Definition serve_all (qs : list api_request) (m : Manager Clientset)
    : Manager Clientset :=
  foldl (λ m q, serve q m) m qs.

End handlers.

Arguments api_request : clear implicits.

End server.

(** * internal/web/routes.go: the dispatch under /pods/ *)
Module routes.

(** [s[n:]] for [n <= len(s)] (Go panics beyond). *)
Fixpoint slice_from (n : nat) (s : string) : string :=
  match n, s with
  | 0, _ => s
  | S n, String _ rest => slice_from n rest
  | S _, EmptyString => EmptyString
  end.

(** [len(sub) > n && sub[len(sub)-n:] == suffix]. *)
Definition ends_with (sub : string) (n : nat) (suffix : string) : bool :=
  (n <? String.length sub)
  && bool_decide (slice_from (String.length sub - n) sub = suffix).

(** The handlers the closure registered for "/pods/" calls. *)
Inductive pods_handler :=
| RedirectToPods
| PodLogs
| PodLogsDownload
| PodExec
| PodExecWS
| PodRestart
| PodDelete
| PodYAML
| PodDetail.

(** The closure of lines 19-57, for a path the mux matched against "/pods/". *)
Definition podsRoute (path : string) : pods_handler :=
  let sub := slice_from (String.length "/pods/") path in
  if decide (sub = "") then RedirectToPods
  else if ends_with sub 5 "/logs" then PodLogs
  else if ends_with sub 14 "/logs/download" then PodLogsDownload
  else if ends_with sub 5 "/exec" then PodExec
  else if ends_with sub 8 "/exec/ws" then PodExecWS
  else if ends_with sub 8 "/restart" then PodRestart
  else if ends_with sub 7 "/delete" then PodDelete
  else if ends_with sub 5 "/yaml" then PodYAML
  else PodDetail.

(** The suffix each handler is reached under, as the closure tests them;
    the detail page is what remains. *)
Definition route_suffix (h : pods_handler) : option string :=
  match h with
  | RedirectToPods => None
  | PodLogs => Some "/logs"
  | PodLogsDownload => Some "/logs/download"
  | PodExec => Some "/exec"
  | PodExecWS => Some "/exec/ws"
  | PodRestart => Some "/restart"
  | PodDelete => Some "/delete"
  | PodYAML => Some "/yaml"
  | PodDetail => Some ""
  end.

(** The bytes of a string. *)
Definition chars (s : string) : list ascii := String.list_ascii_of_string s.

End routes.

(** * The pod views of handlers_pods.go and handlers_storage.go *)
Module pods.

(** [corev1.Container] and [corev1.ContainerStatus], the fields read. *)
Record Container := {
  Name : string;
  Image : string;
}.

Record ContainerStatus := {
  statusName : string;
  RestartCount : Z;   (* int32 *)
  Ready : bool;
}.

Record PodContainerView := {
  viewName : string;
  viewImage : string;
  viewReady : bool;
  viewRestarts : Z;
}.

(** Lines 96-104 of handlePodDetail: the restart count and readiness of the
    first status named [name], zero values when there is none. *)
Fixpoint first_status (name : string) (statuses : list ContainerStatus)
    : Z * bool :=
  match statuses with
  | [] => (0%Z, false)
  | status :: statuses =>
      if decide (statusName status = name) then (RestartCount status, Ready status)
      else first_status name statuses
  end.

(** Lines 94-111 of handlePodDetail. *)
Definition containerViews (containers : list Container)
    (statuses : list ContainerStatus) : list PodContainerView :=
  foldl (λ views c,
           let '(restarts, ready) := first_status (Name c) statuses in
           views ++ [{| viewName := Name c; viewImage := Image c;
                        viewReady := ready; viewRestarts := restarts |}])
        [] containers.

(** int32 arithmetic wraps around. *)
Definition int32 (z : Z) : Z := ((z + 2 ^ 31) `mod` 2 ^ 32 - 2 ^ 31)%Z.

(** [totalRestarts]. *)
Definition totalRestarts (statuses : list ContainerStatus) : Z :=
  foldl (λ restarts s, int32 (restarts + RestartCount s)) 0%Z statuses.

(** The view handlePodDetail builds for the container [c]. *)
Definition view_of (statuses : list ContainerStatus) (c : Container)
    : PodContainerView :=
  {| viewName := Name c; viewImage := Image c;
     viewReady := (first_status (Name c) statuses).2;
     viewRestarts := (first_status (Name c) statuses).1 |}.


(** The range of int32. *)
Definition in_int32 (z : Z) : Prop := (- 2 ^ 31 ≤ z < 2 ^ 31)%Z.


(** The restart counts added up without wrapping. *)
Definition restart_sum (statuses : list ContainerStatus) : Z :=
  foldr (λ s acc, (RestartCount s + acc)%Z) 0%Z statuses.

End pods.

(** * What the termination sequence leaves behind *)
Module session.
Import web.

(** The handler is past line 534, resp. line 535. *)
Definition past_stdin_close (pc : handler_pc) : bool :=
  match pc with
  | InStream | AtCloseDone | AtStdinReaderClose => false
  | _ => true
  end.

Definition past_stdout_close (pc : handler_pc) : bool :=
  match pc with
  | InStream | AtCloseDone | AtStdinReaderClose | AtStdoutWriterClose => false
  | _ => true
  end.

Definition past_final_frame (pc : handler_pc) : bool :=
  match pc with
  | AtWait | Returned => true
  | _ => false
  end.

Record release_inv (s : Session) : Prop := {
  inv_stdin_reader : stdinReader_closed s = past_stdin_close (handler s);
  inv_stdout_writer : stdoutWriter_closed s = past_stdout_close (handler s);
  inv_final :
    past_final_frame (handler s) = true → final_frame (stream_err s) ∈ sent s;
  inv_output : Forall (λ frame, Type_ frame = "output") (sent s);
  inv_first :
    (applied s = [] ∧ chan_buf (sizeChan s) = [initial_size])
    ∨ ∃ rest, applied s = Some initial_size :: rest;
}.

End session.

(** * Concrete worlds and sessions used by the examples below *)
Module fixtures.
Import kube.

Definition dev_context : ApiContext :=
  {| Cluster := "dev-cluster"; AuthInfo := "dev-user"; ctxNamespace := "dev-ns" |}.
Definition prod_context : ApiContext :=
  {| Cluster := "prod-cluster"; AuthInfo := "prod-user"; ctxNamespace := "prod-ns" |}.

(** A kubeconfig with the contexts dev and prod, dev current. *)
Definition kubeconfig : Config :=
  {| Contexts := <["dev" := dev_context]> (<["prod" := prod_context]> ∅);
     CurrentContext := "dev" |}.

(** The context a client config resolves to: the override, else the current
    context of the file. *)
Definition resolved_context (cc : ClientConfig) : string :=
  if decide (overrideCurrentContext (overrides cc) = "") then "dev"
  else overrideCurrentContext (overrides cc).

(** A developer machine: no in-cluster credentials, a kubeconfig under the
    home directory. Handles are named after what they point to. *)
Definition laptop : World string string :=
  {| rest_InClusterConfig := Err "unable to load in-cluster configuration";
     os_ReadFile_serviceaccount_namespace := Err "no such file or directory";
     homedir_HomeDir := "/home/dev";
     os_Getenv_KUBECONFIG := "";
     kubernetes_NewForConfig := λ rc, Ok ("clientset:" +:+ rc);
     cc_RawConfig := λ _, Ok kubeconfig;
     cc_Namespace := λ cc, Ok (resolved_context cc +:+ "-ns");
     cc_ClientConfig := λ cc, Ok (resolved_context cc) |}.

(** The same machine when the credentials of prod cannot be loaded. *)
Definition laptop_prod_broken : World string string :=
  {| rest_InClusterConfig := rest_InClusterConfig laptop;
     os_ReadFile_serviceaccount_namespace := os_ReadFile_serviceaccount_namespace laptop;
     homedir_HomeDir := homedir_HomeDir laptop;
     os_Getenv_KUBECONFIG := os_Getenv_KUBECONFIG laptop;
     kubernetes_NewForConfig := kubernetes_NewForConfig laptop;
     cc_RawConfig := cc_RawConfig laptop;
     cc_Namespace := cc_Namespace laptop;
     cc_ClientConfig := λ cc,
       if decide (resolved_context cc = "prod") then
         Err "invalid configuration: unable to read client-cert"
       else Ok (resolved_context cc) |}.

(** The manager [NewManager laptop ""] returns. *)
Definition on_dev : Manager string :=
  {| clientset := Some "clientset:dev"; namespace := "dev-ns";
     rawConfig := kubeconfig;
     clientConfig := Some (NewNonInteractiveDeferredLoadingClientConfig
                             (ExplicitPath "/home/dev/.kube/config")
                             {| overrideCurrentContext := "" |});
     isLocal := true |}.

(** A pod whose service-account namespace file is empty. *)
Definition pod_with_empty_namespace_file : World string string :=
  {| rest_InClusterConfig := Ok "in-cluster";
     os_ReadFile_serviceaccount_namespace := Ok "";
     homedir_HomeDir := "/root";
     os_Getenv_KUBECONFIG := "";
     kubernetes_NewForConfig := λ rc, Ok ("clientset:" +:+ rc);
     cc_RawConfig := λ _, Err "no kubeconfig";
     cc_Namespace := λ _, Err "no kubeconfig";
     cc_ClientConfig := λ _, Err "no kubeconfig" |}.

(** The manager [NewManager pod_with_empty_namespace_file ""] returns. *)
Definition in_pod : Manager string :=
  {| clientset := Some "clientset:in-cluster"; namespace := "";
     rawConfig := zeroConfig; clientConfig := None; isLocal := false |}.

(** A server whose library calls all succeed, at namespace [ns]. *)
Definition healthy (ns : string) : web.Lib :=
  {| web.upgrader_Upgrade := Ok ();
     web.manager_RESTConfig := Ok ();
     web.remotecommand_NewSPDYExecutor := Ok ();
     web.manager_Namespace := ns |}.


(** A POST request with one form field. *)
Definition post (field value : string) : server.Request :=
  {| server.Method := "POST";
     server.FormValue := λ key, if decide (key = field) then value else "" |}.

Definition app_container : pods.Container := {| pods.Name := "app"; pods.Image := "nginx:1.27" |}.
Definition sidecar : pods.Container := {| pods.Name := "sidecar"; pods.Image := "envoy:v1.31" |}.
Definition app_status : pods.ContainerStatus :=
  {| pods.statusName := "app"; pods.RestartCount := 3; pods.Ready := true |}.
Definition stale_app_status : pods.ContainerStatus :=
  {| pods.statusName := "app"; pods.RestartCount := 9; pods.Ready := false |}.

End fixtures.

(** * Properties of the cluster session manager *)
Module kube_spec.
Import kube fixtures.

Section manager.
Context {RestConfig Clientset : Type}.
Implicit Types (w : World RestConfig Clientset) (m : Manager Clientset).
Implicit Types (c : call RestConfig Clientset).

Lemma namespaceOrDefault_nonempty (r : result string) : namespaceOrDefault r ≠ "".
Proof.
  destruct r as [ns|e]; simpl; [|done].
  destruct (decide (ns ≠ "")); done.
Qed.

(** The two guards of [SwitchContext] return the manager they were given. *)
Lemma SwitchContext_guard w name m :
  isLocal m = false ∨ Contexts (rawConfig m) !! name = None →
  ∃ err, SwitchContext w name m = (m, Some err).
Proof.
  intros Hguard. unfold SwitchContext.
  destruct (isLocal m) eqn:Hlocal; simpl; [|eauto].
  destruct Hguard as [?|Hnone]; [done|].
  rewrite Hnone. eauto.
Qed.

(** Whatever [SwitchContext] returns, the fields it never assigns are kept. *)
Lemma SwitchContext_frame w name m :
  let m' := (SwitchContext w name m).1 in
  isLocal m' = isLocal m ∧ Contexts (rawConfig m') = Contexts (rawConfig m)
  ∧ clientConfig m' = clientConfig m.
Proof.
  unfold SwitchContext.
  destruct (isLocal m) eqn:Hlocal; simpl; [|done].
  destruct (Contexts (rawConfig m) !! name); [|done].
  destruct (cc_ClientConfig w _); [|done].
  destruct (kubernetes_NewForConfig w _); done.
Qed.

(** A failing [SwitchContext] keeps the client and the namespace. *)
Lemma SwitchContext_error_keeps_reads w name m m' err :
  SwitchContext w name m = (m', Some err) →
  Client m' = Client m ∧ Namespace m' = Namespace m.
Proof.
  unfold SwitchContext.
  destruct (isLocal m); simpl; [|by intros [= <- _]].
  destruct (Contexts (rawConfig m) !! name); [|by intros [= <- _]].
  destruct (cc_ClientConfig w _); [|by intros [= <- _]].
  destruct (kubernetes_NewForConfig w _); [|by intros [= <- _]].
  simpl. intros [=].
Qed.

(** A successful [SwitchContext] installs the pair of the target context. *)
Lemma SwitchContext_ok_installs w name m m' :
  SwitchContext w name m = (m', None) → context_pair w name (snapshot m').
Proof.
  unfold SwitchContext, context_pair.
  destruct (isLocal m); simpl; [|done].
  destruct (Contexts (rawConfig m) !! name); [|done].
  destruct (cc_ClientConfig w _) as [restConfig|] eqn:Hrc; [|done].
  destruct (kubernetes_NewForConfig w restConfig) as [cs|] eqn:Hcs; [|done].
  intros [= <-]. by exists restConfig, cs.
Qed.

Lemma SwitchContext_namespace_nonempty w name m :
  Namespace m ≠ "" → Namespace (SwitchContext w name m).1 ≠ "".
Proof.
  intros Hm. unfold SwitchContext.
  destruct (isLocal m); simpl; [|done].
  destruct (Contexts (rawConfig m) !! name); [|done].
  destruct (cc_ClientConfig w _); [|done].
  destruct (kubernetes_NewForConfig w _); [|done].
  apply namespaceOrDefault_nonempty.
Qed.





(** C1: a [SwitchContext(name)] with [name] not among the known contexts,
    or on a manager that is not in local mode, returns an error, and
    [Client()] and [Namespace()] return after the call what they returned
    before it. *)
Theorem SwitchContext_rejected_keeps_reads w name m :
  isLocal m = false ∨ Contexts (rawConfig m) !! name = None →
  let '(m', err) := SwitchContext w name m in
  is_Some err ∧ Client m' = Client m ∧ Namespace m' = Namespace m.
Proof.
  intros Hguard.
  destruct (SwitchContext_guard w name m Hguard) as [err ->].
  split; [by exists err|done].
Qed.



End manager.

Lemma NewManager_laptop : NewManager laptop "" = Ok on_dev.
Proof. reflexivity. Qed.

Lemma SwitchContext_rejected_keeps_reads_witness :
  Contexts (rawConfig on_dev) !! "staging" = None
  ∧ let '(m', err) := SwitchContext laptop "staging" on_dev in
    is_Some err ∧ Client m' = Client on_dev ∧ Namespace m' = Namespace on_dev.
Proof.
  split; [reflexivity|].
  apply (SwitchContext_rejected_keeps_reads laptop "staging" on_dev).
  right. reflexivity.
Defined.

(** C2: on a manager at context dev, [SwitchContext("prod")] passes the name
    check and fails while building the client; it returns the error with the
    client and the namespace of dev in place, and with the current-context
    name of the raw config already moved to prod. *)
Theorem SwitchContext_failed_build_moves_CurrentContext :
  ∃ m' err,
    SwitchContext laptop_prod_broken "prod" on_dev = (m', Some err)
    ∧ Client m' = Client on_dev
    ∧ Namespace m' = Namespace on_dev
    ∧ CurrentContext (rawConfig on_dev) = "dev"
    ∧ CurrentContext (rawConfig m') = "prod".
Proof. eexists _, _. split; [reflexivity|]. by repeat split. Qed.





End kube_spec.

(** * Properties of the exec bridge *)
Module web_spec.
Import web.

(** ** Channels and the size queue *)



(** ** Invariants of the session *)

(** [done] is closed exactly when the handler is past line 533. *)
Definition past_close_done (pc : handler_pc) : bool :=
  match pc with
  | InStream | AtCloseDone => false
  | _ => true
  end.

Record session_inv (s : Session) : Prop := {
  inv_open : chan_closed (sizeChan s) = false;
  inv_cap : chan_cap (sizeChan s) = 1;
  inv_buf : List.length (chan_buf (sizeChan s)) ≤ 1;
  inv_no_panic : inbound s ≠ InboundPanicked;
  inv_exit_closes : inbound s = InboundExited ↔ stdinWriter_closed s = true;
  inv_done : done s = past_close_done (handler s);
  inv_returned :
    handler s = Returned → inbound s = InboundExited ∧ outbound s = OutboundExited;
  inv_no_nil : None ∉ applied s;
}.

Lemma newSession_inv : session_inv newSession.
Proof.
  split; simpl; try done; try lia. apply not_elem_of_nil.
Qed.

Ltac step_cases H :=
  unfold step, inbound_select, inbound_read, inbound_message, inbound_return,
    outbound_iter, Next, chan_recv, chan_send in H;
  repeat (case_match; simplify_eq/=; try done).

Lemma step_inv s e s' : session_inv s → step s e = Some s' → session_inv s'.
Proof.
  intros Hinv Hstep.
  destruct e; step_cases Hstep; destruct Hinv; split; simpl in *; try done.
  all: try congruence.
  all: try (rewrite inv_done0;
            by repeat match goal with H : handler _ = _ |- _ => rewrite H end).
  all: try (split; [congruence|];
            intros Hc; apply inv_exit_closes0 in Hc; congruence).
  all: try (intros Hr; destruct (inv_returned0 Hr); split; congruence).
  all: try (rewrite elem_of_app, list_elem_of_singleton; by intros [?|?]).
  - rewrite length_app. simpl.
    match goal with H : (_ <? _) = true |- _ => apply Nat.ltb_lt in H end. lia.
  - match goal with H : chan_buf _ = _ :: _ |- _ => rewrite H in inv_buf0 end.
    simpl in inv_buf0. lia.
Qed.

Lemma run_inv s tr s' : session_inv s → run s tr = Some s' → session_inv s'.
Proof.
  revert s. induction tr as [|e tr IH]; intros s Hinv; simpl.
  - by intros [= <-].
  - destruct (step s e) as [s1|] eqn:Hstep; [|done].
    intros Hrun. eapply IH; [|done]. by eapply step_inv.
Qed.

Lemma reachable_inv s : reachable s → session_inv s.
Proof. intros [tr Hrun]. eapply run_inv; [apply newSession_inv|done]. Qed.

Lemma run_app s tr1 tr2 :
  run s (tr1 ++ tr2) = match run s tr1 with Some s1 => run s1 tr2 | None => None end.
Proof.
  revert s. induction tr1 as [|e tr1 IH]; intros s; simpl; [done|].
  destruct (step s e); [apply IH|done].
Qed.

(** ** The inbound pump *)

(** Every way out of the loop goes through the deferred close. *)
Lemma inbound_exit_closes_stdin s :
  reachable s → inbound s = InboundExited → stdinWriter_closed s = true.
Proof. intros Hs. by apply (inv_exit_closes s (reachable_inv s Hs)). Qed.

(** A read error, which is how the pump sees a closed client channel, ends
    the loop. *)
Lemma inbound_exits_on_read_error s :
  inbound s = InReadMessage →
  ∃ s', step s (ConnRead ConnReadErr) = Some s' ∧ inbound s' = InboundExited
        ∧ stdinWriter_closed s' = true.
Proof. intros Hin. unfold step. rewrite Hin. by eexists. Qed.

(** The select ends the loop when it finds [done] closed. *)
Lemma inbound_exits_at_select s :
  inbound s = AtSelect → done s = true →
  ∃ s', step s InboundSelect = Some s' ∧ inbound s' = InboundExited
        ∧ stdinWriter_closed s' = true.
Proof.
  intros Hin Hdone. unfold step, inbound_select. rewrite Hin, Hdone. by eexists.
Qed.

(** A pump blocked in [conn.ReadMessage] stays there whatever else happens,
    the closing of [done] included, until the client channel delivers. *)
Lemma blocked_read_waits_for_client s e s' :
  inbound s = InReadMessage → (∀ r, e ≠ ConnRead r) →
  step s e = Some s' → inbound s' = InReadMessage.
Proof.
  intros Hin He Hstep.
  destruct e as [err| | |r| |r write_ok|]; try (by destruct (He r));
    step_cases Hstep; congruence.
Qed.

Lemma blocked_read_waits_for_client_run tr : ∀ s s',
  session_inv s → inbound s = InReadMessage →
  Forall (λ e, ∀ r, e ≠ ConnRead r) tr →
  run s tr = Some s' → inbound s' = InReadMessage ∧ handler s' ≠ Returned.
Proof.
  assert (∀ s s', inbound s = InReadMessage →
            Forall (λ e, ∀ r, e ≠ ConnRead r) tr →
            run s tr = Some s' → inbound s' = InReadMessage) as Hblocked.
  { induction tr as [|e tr IH]; intros s s' Hin Htr; simpl.
    - by intros [= <-].
    - destruct (step s e) as [s1|] eqn:Hstep; [|done].
      inversion_clear Htr as [|?? He Htr'].
      apply IH; [|done]. by eapply blocked_read_waits_for_client. }
  intros s s' Hinv Hin Htr Hrun.
  pose proof (Hblocked s s' Hin Htr Hrun) as Hin'.
  split; [done|]. intros Hret.
  destruct (inv_returned s' (run_inv s tr s' Hinv Hrun) Hret). congruence.
Qed.

(** C7: with the pump blocked in [conn.ReadMessage], the stream returns and
    the handler runs its termination sequence up to [wg.Wait()]. [done] is
    closed and the pump has not moved: it is still in the read, the select
    cannot run and [wg.Wait()] cannot return. The frame the client sends next
    is read and applied (here a resize reaches the size channel), and only
    the select after it ends the loop, closing the stdin writer. *)
Theorem inbound_pump_reads_after_done :
  let terminate := [StreamReturns None; HandlerStep; HandlerStep; HandlerStep;
                    HandlerStep] in
  ∃ s s1 s2,
    run newSession ([InboundSelect; TransportNext] ++ terminate) = Some s
    ∧ done s = true ∧ handler s = AtWait
    ∧ inbound s = InReadMessage
    ∧ step s InboundSelect = None ∧ step s HandlerStep = None
    ∧ step s (ConnRead (ConnMessage (resize_frame 40 100))) = Some s1
    ∧ chan_buf (sizeChan s) = []
    ∧ chan_buf (sizeChan s1) = [{| Width := 100; Height := 40 |}]
    ∧ step s1 InboundSelect = Some s2
    ∧ inbound s2 = InboundExited ∧ stdinWriter_closed s2 = true.
Proof.
  cbv zeta. eexists _, _, _.
  repeat (apply conj; [vm_compute; reflexivity|]). vm_compute; reflexivity.
Qed.



(** ** The size queue *)

(** C4 as stated fails: on a new session the slot holds the initial size.
    R1 = 80x24 and R2 = 100x40 arrive before the transport has pulled
    anything; the transport then gets 120x30, and nothing after it: R1 was
    dropped like R2. *)
Lemma resize_dropped_behind_initial_size :
  ∃ s,
    run newSession [InboundSelect; ConnRead (ConnMessage (resize_frame 24 80));
                    InboundSelect; ConnRead (ConnMessage (resize_frame 40 100));
                    TransportNext] = Some s
    ∧ applied s = [Some initial_size]
    ∧ chan_buf (sizeChan s) = []
    ∧ step s TransportNext = None.
Proof.
  eexists.
  repeat (apply conj; [vm_compute; reflexivity|]). vm_compute; reflexivity.
Qed.

(** C4, amended: the slot holds one value and the offer does not block. If
    the slot is empty when R1 arrives (the initial 120x30 has been pulled),
    and R2 arrives before the transport pulls, the transport gets R1 and R2
    is dropped; R3, arriving after R1 was pulled, is the next value the
    transport gets. *)
Theorem resize_overflow_on_empty_slot s (rows1 cols1 rows2 cols2 rows3 cols3 : N) :
  reachable s → inbound s = InReadMessage → done s = false →
  chan_buf (sizeChan s) = [] →
  ∃ s',
    run s [ConnRead (ConnMessage (resize_frame rows1 cols1)); InboundSelect;
           ConnRead (ConnMessage (resize_frame rows2 cols2)); TransportNext;
           InboundSelect;
           ConnRead (ConnMessage (resize_frame rows3 cols3)); TransportNext]
    = Some s'
    ∧ applied s' = applied s ++ [Some {| Width := cols1; Height := rows1 |};
                                 Some {| Width := cols3; Height := rows3 |}]
    ∧ chan_buf (sizeChan s') = [].
Proof.
  intros Hs Hin Hdone Hbuf.
  destruct (reachable_inv s Hs) as [Hopen Hcap _ _ _ _ _ _].
  destruct s as [pc err dn rc wc oc sin [buf cap closed] app ib ob snt].
  simpl in Hin, Hdone, Hbuf, Hopen, Hcap. subst.
  eexists. split; [vm_compute; reflexivity|].
  split; [|reflexivity].
  transitivity ((app ++ [Some {| Width := cols1; Height := rows1 |}])
                ++ [Some {| Width := cols3; Height := rows3 |}]).
  - vm_compute; reflexivity.
  - by rewrite <-app_assoc.
Qed.

Lemma resize_overflow_on_empty_slot_witness :
  ∃ s,
    run newSession [InboundSelect; TransportNext] = Some s
    ∧ ∃ s',
        run s [ConnRead (ConnMessage (resize_frame 24 80)); InboundSelect;
               ConnRead (ConnMessage (resize_frame 40 100)); TransportNext;
               InboundSelect;
               ConnRead (ConnMessage (resize_frame 50 132)); TransportNext]
        = Some s'
        ∧ applied s' = applied s ++ [Some {| Width := 80; Height := 24 |};
                                     Some {| Width := 132; Height := 50 |}]
        ∧ chan_buf (sizeChan s') = [].
Proof.
  eexists. split; [vm_compute; reflexivity|].
  apply (resize_overflow_on_empty_slot _ 24 80 40 100 50 132).
  - exists [InboundSelect; TransportNext]. vm_compute; reflexivity.
  - reflexivity.
  - reflexivity.
  - reflexivity.
Defined.





(** ** The outbound pump *)






(** ** The request checks *)

(** C6 as stated fails: with an empty namespace (the one [NewManager]
    returns in a pod whose namespace file is empty), and with an empty pod
    name segment in the path, a request that names a container is upgraded
    and its session is opened. *)
Lemma exec_opened_with_empty_namespace_or_pod :
  let r1 := {| URL_Path := "/pods/web-1/exec/ws"; Query_container := "app" |} in
  let r2 := {| URL_Path := "/pods//web-1/exec/ws"; Query_container := "app" |} in
  kube.NewManager fixtures.pod_with_empty_namespace_file "" = Ok fixtures.in_pod
  ∧ manager_Namespace (fixtures.healthy (kube.Namespace fixtures.in_pod)) = ""
  ∧ handlePodExecWS (fixtures.healthy (kube.Namespace fixtures.in_pod)) r1
    = [Upgraded; ExecSession "web-1" "" "app"; ConnClose]
  ∧ pod_name r2 = ""
  ∧ handlePodExecWS (fixtures.healthy "default") r2
    = [Upgraded; ExecSession "" "default" "app"; ConnClose].
Proof. repeat (apply conj; [vm_compute; reflexivity|]). vm_compute; reflexivity. Qed.

(** C6, amended: a request is rejected with a 400, before the socket is
    upgraded and with no session opened, exactly when its container name is
    empty or its path has fewer than three segments; an empty pod name
    segment and an empty namespace are not looked at. *)
Theorem exec_rejected_iff_no_container lib r :
  rejected_before_upgrade (handlePodExecWS lib r)
  ↔ Query_container r = "" ∨ List.length (Split (URL_Path r) "/"%char) < 3.
Proof.
  unfold rejected_before_upgrade, handlePodExecWS.
  destruct (Nat.ltb_spec (List.length (Split (URL_Path r) "/"%char)) 3) as [Hlt|Hge].
  { split; [by right|]. by eexists. }
  destruct (decide (Query_container r = "")) as [Hc|Hc].
  { split; [by left|]. by eexists. }
  split; [|intros [?|?]; [done|lia]].
  intros [body Hacts]. exfalso.
  destruct (upgrader_Upgrade lib); [|by inversion Hacts].
  discriminate.
Qed.

End web_spec.

(** * More on the cluster session manager *)
Module manager_spec.
Import kube fixtures.

(** ** The order of sort.Strings *)

#[global] Instance string_le_total : Total string_le.
Proof. intros a b. apply String.leb_total. Qed.

#[global] Instance string_le_antisymm : AntiSymm (=) string_le.
Proof. intros a b. apply String.leb_antisym. Qed.

#[global] Instance string_le_trans : Transitive string_le.
Proof.
  unfold string_le, String.leb.
  intros a. induction a as [|x a IH]; intros [|y b] [|z c]; simpl; try done.
  unfold Ascii.compare.
  destruct (N.compare_spec (N_of_ascii x) (N_of_ascii y)) as [Hxy|Hxy|Hxy];
    destruct (N.compare_spec (N_of_ascii y) (N_of_ascii z)) as [Hyz|Hyz|Hyz];
    destruct (N.compare_spec (N_of_ascii x) (N_of_ascii z)) as [Hxz|Hxz|Hxz];
    try done; try lia.
  apply IH.
Qed.

Lemma sort_Strings_Sorted (names : list string) :
  Sorted string_le (sort_Strings names).
Proof. apply Sorted_merge_sort; apply _. Qed.

Lemma sort_Strings_Permutation (names : list string) :
  sort_Strings names ≡ₚ names.
Proof. apply merge_sort_Permutation. Qed.

(** The loop [contexts = append(contexts, name)] collects the keys in the
    order of the range. *)
Lemma collect_keys (keys acc : list string) :
  foldl (λ contexts name, contexts ++ [name]) acc keys = acc ++ keys.
Proof.
  revert acc. induction keys as [|k keys IH]; intros acc; simpl.
  - by rewrite app_nil_r.
  - by rewrite IH, <-app_assoc.
Qed.

Section manager.
Context {RestConfig Clientset : Type}.
Implicit Types (w : World RestConfig Clientset) (m : Manager Clientset).

Lemma Contexts_ranging_local keys m :
  isLocal m = true →
  Contexts_ranging keys m = (sort_Strings keys, CurrentContext (rawConfig m)).
Proof.
  intros Hlocal. unfold Contexts_ranging. rewrite Hlocal. simpl.
  by rewrite collect_keys.
Qed.

(** X1: in local mode [Contexts()] returns the names of the known contexts
    in ascending byte order, each once, with the current context name of
    the raw config: a name is in the list exactly when it is a key of the
    context map. *)
Theorem Contexts_sorted_keys m :
  isLocal m = true →
  Sorted string_le (Manager_Contexts m).1
  ∧ NoDup (Manager_Contexts m).1
  ∧ (∀ name, name ∈ (Manager_Contexts m).1
             ↔ is_Some (Contexts (rawConfig m) !! name))
  ∧ (Manager_Contexts m).2 = CurrentContext (rawConfig m).
Proof.
  intros Hlocal. unfold Manager_Contexts.
  rewrite Contexts_ranging_local by done. simpl.
  split; [apply sort_Strings_Sorted|].
  split.
  { rewrite sort_Strings_Permutation. apply NoDup_fst_map_to_list. }
  split; [|done].
  intros name. rewrite sort_Strings_Permutation.
  rewrite list_elem_of_fmap. split.
  - intros [[k v] [-> Hkv%elem_of_map_to_list]]. by exists v.
  - intros [v Hv]. exists (name, v). by rewrite elem_of_map_to_list.
Qed.

(** X2: the result of [Contexts()] does not depend on the order in which
    the range over the context map yields its keys. *)
Theorem Contexts_any_range_order keys m :
  keys ≡ₚ (map_to_list (Contexts (rawConfig m))).*1 →
  Contexts_ranging keys m = Manager_Contexts m.
Proof.
  intros Hkeys. unfold Manager_Contexts, Contexts_ranging.
  destruct (isLocal m); simpl; [|done].
  rewrite !collect_keys. simpl. f_equal.
  apply (Sorted_unique string_le); try apply sort_Strings_Sorted.
  by rewrite !sort_Strings_Permutation.
Qed.

(** X3: a manager [NewManager] built from in-cluster credentials is not in
    local mode, lists no contexts, and refuses every [SwitchContext] with
    the same error, staying as it is. *)
Theorem in_cluster_manager_has_no_contexts w initialNamespace config m :
  rest_InClusterConfig w = Ok config →
  NewManager w initialNamespace = Ok m →
  IsLocal m = false
  ∧ Manager_Contexts m = ([], "")
  ∧ ∀ w' name,
      SwitchContext w' name m = (m, Some "cannot switch context in in-cluster mode").
Proof.
  intros Hin. unfold NewManager. rewrite Hin.
  destruct (kubernetes_NewForConfig w config); [|done].
  intros [= <-].
  assert (∀ (m0 : Manager Clientset) cs,
            isLocal (set_clientset cs m0) = isLocal m0) as Hset by done.
  split.
  { unfold IsLocal. rewrite Hset.
    destruct (decide _); [destruct (os_ReadFile_serviceaccount_namespace w)|]; done. }
  split.
  { unfold Manager_Contexts, Contexts_ranging. rewrite Hset.
    destruct (decide _); [destruct (os_ReadFile_serviceaccount_namespace w)|]; done. }
  intros w' name. unfold SwitchContext. rewrite Hset.
  destruct (decide _); [destruct (os_ReadFile_serviceaccount_namespace w)|]; done.
Qed.

(** X4: [SwitchContext(name)] returns nil exactly when the manager is in
    local mode, [name] is a key of the context map, and both build steps
    (the rest config and the clientset) succeed. *)
Theorem SwitchContext_succeeds_iff w name m :
  (SwitchContext w name m).2 = None
  ↔ isLocal m = true
    ∧ is_Some (Contexts (rawConfig m) !! name)
    ∧ ∃ restConfig cs,
        cc_ClientConfig w (switchClientConfig name) = Ok restConfig
        ∧ kubernetes_NewForConfig w restConfig = Ok cs.
Proof.
  unfold SwitchContext.
  destruct (isLocal m); simpl; [|by split; [|intros [? _]]].
  destruct (Contexts (rawConfig m) !! name) as [ctx|]; simpl.
  2: { split; [done|]. by intros (_ & [? [=]] & _). }
  destruct (cc_ClientConfig w _) as [restConfig|err]; simpl.
  2: { split; [done|]. by intros (_ & _ & ? & ? & [=] & _). }
  destruct (kubernetes_NewForConfig w restConfig) as [cs|err] eqn:Hcs; simpl.
  - split; [|done]. intros _. split; [done|]. split; [by eexists|].
    by exists restConfig, cs.
  - split; [done|]. intros (_ & _ & rc' & cs' & [= <-] & Hcs').
    congruence.
Qed.

(** X5: after a successful [SwitchContext(name)], [Contexts()] returns the
    list it returned before, which has [name] in it, with [name] as the
    current context; the mode is unchanged. *)
Theorem Contexts_after_switch w name m m' :
  SwitchContext w name m = (m', None) →
  Manager_Contexts m' = ((Manager_Contexts m).1, name)
  ∧ name ∈ (Manager_Contexts m').1
  ∧ IsLocal m' = IsLocal m.
Proof.
  intros Hswitch.
  assert ((SwitchContext w name m).2 = None) as Hok by by rewrite Hswitch.
  apply SwitchContext_succeeds_iff in Hok as (Hlocal & Hname & _).
  pose proof (kube_spec.SwitchContext_frame w name m) as Hframe.
  rewrite Hswitch in Hframe. simpl in Hframe.
  destruct Hframe as (Hlocal' & Hctxs & _).
  assert (CurrentContext (rawConfig m') = name) as Hcur.
  { revert Hswitch. unfold SwitchContext. rewrite Hlocal. simpl.
    destruct (Contexts (rawConfig m) !! name); [|done].
    destruct (cc_ClientConfig w _); [|done].
    destruct (kubernetes_NewForConfig w _); [|done].
    by intros [= <-]. }
  assert (Manager_Contexts m' = ((Manager_Contexts m).1, name)) as Heq.
  { unfold Manager_Contexts. rewrite Hctxs.
    rewrite !Contexts_ranging_local by congruence. simpl. by rewrite Hcur. }
  split; [done|]. split; [|unfold IsLocal; congruence].
  rewrite Heq. simpl.
  by apply (Contexts_sorted_keys m Hlocal).
Qed.

(** X6: a namespace chosen with [SetNamespace] does not survive a context
    switch: a successful [SwitchContext] ends in the same manager whatever
    namespace was set before it, and a failing one keeps the namespace
    that was set. *)
Theorem SwitchContext_overrides_SetNamespace w name ns m :
  SwitchContext w name (SetNamespace ns m)
  = match SwitchContext w name m with
    | (m', None) => (m', None)
    | (m', Some err) => (SetNamespace ns m', Some err)
    end.
Proof.
  unfold SwitchContext, SetNamespace. simpl.
  destruct (isLocal m); simpl; [|done].
  destruct (Contexts (rawConfig m) !! name); [|done].
  destruct (cc_ClientConfig w _); [|done].
  destruct (kubernetes_NewForConfig w _); done.
Qed.

(** X7: switching again to the context the manager has just been switched
    to changes nothing. *)
Theorem SwitchContext_idempotent w name m m' :
  SwitchContext w name m = (m', None) →
  SwitchContext w name m' = (m', None).
Proof.
  unfold SwitchContext, switchClientConfig,
    NewNonInteractiveDeferredLoadingClientConfig.
  destruct (isLocal m) eqn:Hlocal; simpl; [|done].
  destruct (Contexts (rawConfig m) !! name) eqn:Hname; [|done].
  destruct (cc_ClientConfig w _) eqn:Hrc; [|done].
  destruct (kubernetes_NewForConfig w _) eqn:Hcs; [|done].
  intros [= <-]. simpl. rewrite Hlocal, Hname. simpl. reflexivity.
Qed.

(** X8: a successful [NewManager] holds a client, and a non-empty initial
    namespace is the namespace of the manager, in either mode. *)
Theorem NewManager_keeps_initial_namespace w initialNamespace m :
  NewManager w initialNamespace = Ok m →
  initialNamespace ≠ "" →
  is_Some (Client m) ∧ Namespace m = initialNamespace.
Proof.
  intros Hnew Hns. revert Hnew. unfold NewManager.
  destruct (rest_InClusterConfig w) as [config|_].
  - destruct (kubernetes_NewForConfig w config); [|done].
    intros [= <-]. simpl. by rewrite decide_False.
  - destruct (decide (_ = "")); [done|].
    destruct (cc_RawConfig w _); [|done].
    destruct (cc_ClientConfig w _); [|done].
    destruct (kubernetes_NewForConfig w _); [|done].
    intros [= <-]. simpl. by rewrite decide_False.
Qed.

(** X9: the mode follows the in-cluster credentials alone: a successful
    [NewManager] is in local mode exactly when [rest.InClusterConfig]
    failed; in-cluster it holds no kubeconfig at all, and in local mode its
    raw config is the one loaded from the kubeconfig path. *)
Theorem NewManager_mode w initialNamespace m :
  NewManager w initialNamespace = Ok m →
  match rest_InClusterConfig w with
  | Ok _ => isLocal m = false ∧ rawConfig m = zeroConfig ∧ clientConfig m = None
  | Err _ =>
      isLocal m = true
      ∧ ∃ cc, clientConfig m = Some cc ∧ cc_RawConfig w cc = Ok (rawConfig m)
              ∧ overrides cc = {| overrideCurrentContext := "" |}
  end.
Proof.
  unfold NewManager.
  destruct (rest_InClusterConfig w) as [config|_].
  - destruct (kubernetes_NewForConfig w config); [|done].
    intros [= <-]. simpl.
    destruct (decide _); [destruct (os_ReadFile_serviceaccount_namespace w)|]; done.
  - destruct (decide (_ = "")); [done|].
    destruct (cc_RawConfig w _) as [raw|] eqn:Hraw; [|done].
    destruct (cc_ClientConfig w _); [|done].
    destruct (kubernetes_NewForConfig w _); [|done].
    intros [= <-]. simpl.
    destruct (decide (initialNamespace = "")); simpl.
    all: split; [done|]; eexists; split; [done|]; split; [|done].
    all: by rewrite Hraw.
Qed.

(** X10: what a successful [SwitchContext(name)] installs depends on the
    name alone, not on the manager it is called on: two managers switched
    to the same context hold the same client and the same namespace. *)
Theorem SwitchContext_installs_same_pair w name m1 m2 m1' m2' :
  SwitchContext w name m1 = (m1', None) →
  SwitchContext w name m2 = (m2', None) →
  Client m1' = Client m2' ∧ Namespace m1' = Namespace m2'.
Proof.
  intros (rc1 & cs1 & Hrc1 & Hcs1 & Hpair1)%kube_spec.SwitchContext_ok_installs
         (rc2 & cs2 & Hrc2 & Hcs2 & Hpair2)%kube_spec.SwitchContext_ok_installs.
  rewrite Hrc1 in Hrc2. injection Hrc2 as <-.
  rewrite Hcs1 in Hcs2. injection Hcs2 as <-.
  unfold snapshot in *. rewrite <-Hpair2 in Hpair1.
  by injection Hpair1 as -> ->.
Qed.


End manager.

Example Contexts_on_dev : Manager_Contexts on_dev = (["dev"; "prod"], "dev").
Proof. vm_compute. reflexivity. Qed.

Lemma Contexts_sorted_keys_witness :
  isLocal on_dev = true
  ∧ Sorted string_le (Manager_Contexts on_dev).1
  ∧ NoDup (Manager_Contexts on_dev).1
  ∧ (∀ name, name ∈ (Manager_Contexts on_dev).1
             ↔ is_Some (Contexts (rawConfig on_dev) !! name))
  ∧ (Manager_Contexts on_dev).2 = CurrentContext (rawConfig on_dev).
Proof.
  split; [reflexivity|]. apply (Contexts_sorted_keys on_dev). reflexivity.
Defined.

Lemma Contexts_any_range_order_witness :
  Contexts_ranging ["prod"; "dev"] on_dev = Manager_Contexts on_dev
  ∧ Contexts_ranging ["dev"; "prod"] on_dev = Manager_Contexts on_dev.
Proof.
  split.
  - apply (Contexts_any_range_order ["prod"; "dev"] on_dev).
    vm_compute. first [reflexivity | apply perm_swap].
  - apply (Contexts_any_range_order ["dev"; "prod"] on_dev).
    vm_compute. first [reflexivity | apply perm_swap].
Defined.

Lemma in_cluster_manager_has_no_contexts_witness :
  IsLocal in_pod = false
  ∧ Manager_Contexts in_pod = ([], "")
  ∧ ∀ (w' : World string string) name,
      SwitchContext w' name in_pod
      = (in_pod, Some "cannot switch context in in-cluster mode").
Proof.
  apply (in_cluster_manager_has_no_contexts
           pod_with_empty_namespace_file "" "in-cluster" in_pod).
  - reflexivity.
  - reflexivity.
Defined.

Lemma Contexts_after_switch_witness :
  let m' := (SwitchContext laptop "prod" on_dev).1 in
  Manager_Contexts m' = ((Manager_Contexts on_dev).1, "prod")
  ∧ "prod" ∈ (Manager_Contexts m').1
  ∧ IsLocal m' = IsLocal on_dev.
Proof.
  apply (Contexts_after_switch laptop "prod" on_dev). reflexivity.
Defined.

Lemma SwitchContext_idempotent_witness :
  let m' := (SwitchContext laptop "prod" on_dev).1 in
  SwitchContext laptop "prod" m' = (m', None).
Proof.
  apply (SwitchContext_idempotent laptop "prod" on_dev). reflexivity.
Defined.

Lemma NewManager_keeps_initial_namespace_witness :
  is_Some (Client (set_namespace "kube-system" on_dev))
  ∧ Namespace (set_namespace "kube-system" on_dev) = "kube-system".
Proof.
  apply (NewManager_keeps_initial_namespace laptop "kube-system").
  - reflexivity.
  - discriminate.
Defined.

Lemma NewManager_mode_witness :
  isLocal on_dev = true
  ∧ ∃ cc, clientConfig on_dev = Some cc
          ∧ cc_RawConfig laptop cc = Ok (rawConfig on_dev)
          ∧ overrides cc = {| overrideCurrentContext := "" |}.
Proof. apply (NewManager_mode laptop "" on_dev). reflexivity. Defined.

Lemma SwitchContext_installs_same_pair_witness :
  let m1' := (SwitchContext laptop "prod" on_dev).1 in
  let m2' := (SwitchContext laptop "prod" (SetNamespace "kube-system" on_dev)).1 in
  Client m1' = Client m2' ∧ Namespace m1' = Namespace m2'.
Proof.
  apply (SwitchContext_installs_same_pair laptop "prod" on_dev
           (SetNamespace "kube-system" on_dev)); reflexivity.
Defined.


End manager_spec.

(** * The API handlers of server.go *)
Module server_spec.
Import kube server fixtures.

Section handlers.
Context {RestConfig Clientset : Type}.
Implicit Types (w : World RestConfig Clientset) (m : Manager Clientset).
Implicit Types (q : api_request RestConfig Clientset).

(** X12: a request to /api/switch-context that is answered with an error
    (wrong method, no context named, or a failed switch) leaves the client
    and the namespace of the manager as they were. *)
Theorem handleSwitchContext_error_keeps_reads w r m m' body status :
  handleSwitchContext w r m = (m', Error body status) →
  Client m' = Client m ∧ Namespace m' = Namespace m.
Proof.
  unfold handleSwitchContext.
  destruct (decide (Method r ≠ MethodPost)); [by intros [= <- _ _]|].
  destruct (decide (FormValue r "context" = "")); [by intros [= <- _ _]|].
  destruct (SwitchContext w (FormValue r "context") m) as [m1 [err|]] eqn:Hswitch;
    [|done].
  intros [= <- _ _]. by eapply kube_spec.SwitchContext_error_keeps_reads.
Qed.

(** X13: /api/switch-context answers with the redirect exactly when the
    request is a POST that names a context and [SwitchContext] returned
    nil for it. *)
Theorem handleSwitchContext_redirects_iff w r m :
  (handleSwitchContext w r m).2 = Redirect "/" StatusFound
  ↔ Method r = MethodPost
    ∧ FormValue r "context" ≠ ""
    ∧ (SwitchContext w (FormValue r "context") m).2 = None.
Proof.
  unfold handleSwitchContext.
  destruct (decide (Method r ≠ MethodPost)) as [Hm|Hm]; simpl.
  { split; [done|]. by intros [? _]. }
  apply dec_stable in Hm.
  destruct (decide (FormValue r "context" = "")) as [Hc|Hc]; simpl.
  { split; [done|]. by intros (_ & ? & _). }
  destruct (SwitchContext w (FormValue r "context") m) as [m1 [err|]]; simpl.
  - split; [done|]. by intros (_ & _ & [=]).
  - done.
Qed.

Lemma serve_namespace_nonempty q m :
  Namespace m ≠ "" → Namespace (serve q m) ≠ "".
Proof.
  intros Hm. destruct q as [w r|r]; simpl.
  - unfold handleSwitchContext.
    destruct (decide (Method r ≠ MethodPost)); [done|].
    destruct (decide (FormValue r "context" = "")); [done|].
    pose proof (kube_spec.SwitchContext_namespace_nonempty
                  w (FormValue r "context") m Hm) as Hns.
    destruct (SwitchContext w (FormValue r "context") m) as [m1 [err|]]; done.
  - unfold handleSwitchNamespace.
    destruct (decide (Method r ≠ MethodPost)); [done|].
    by destruct (decide (FormValue r "namespace" = "")).
Qed.

(** X14: no sequence of requests to /api/switch-context and
    /api/switch-namespace, whatever their methods and form values, makes a
    non-empty namespace empty. *)
Theorem api_keeps_namespace_nonempty (qs : list (api_request RestConfig Clientset)) m :
  Namespace m ≠ "" → Namespace (serve_all qs m) ≠ "".
Proof.
  revert m. induction qs as [|q qs IH]; intros m Hm; [done|].
  simpl. apply IH. by apply serve_namespace_nonempty.
Qed.

End handlers.

Lemma handleSwitchContext_error_keeps_reads_witness :
  ∃ m' body,
    handleSwitchContext laptop_prod_broken (post "context" "prod") on_dev
    = (m', Error body StatusInternalServerError)
    ∧ Client m' = Client on_dev ∧ Namespace m' = Namespace on_dev.
Proof.
  eexists _, _. split; [vm_compute; reflexivity|].
  eapply (handleSwitchContext_error_keeps_reads
            laptop_prod_broken (post "context" "prod") on_dev).
  vm_compute; reflexivity.
Defined.

Lemma api_keeps_namespace_nonempty_witness :
  let qs := [SwitchNamespaceRequest (post "namespace" "");
             SwitchNamespaceRequest (post "namespace" "kube-system");
             SwitchContextRequest laptop (post "context" "prod");
             SwitchContextRequest laptop_prod_broken (post "context" "prod")] in
  Namespace on_dev ≠ "" ∧ Namespace (serve_all qs on_dev) ≠ "".
Proof.
  cbv zeta. split; [discriminate|].
  apply api_keeps_namespace_nonempty. discriminate.
Defined.

End server_spec.

(** * The dispatch under /pods/ and the request checks of the exec handler *)
Module routes_spec.
Import web routes.

(** ** Strings *)

Lemma length_append (a b : string) :
  String.length (a +:+ b) = String.length a + String.length b.
Proof. induction a as [|x a IH]; simpl; [done|]. by rewrite IH. Qed.

Lemma append_cons (x : ascii) (a b : string) :
  String x a +:+ b = String x (a +:+ b).
Proof. reflexivity. Qed.

Lemma append_empty (a : string) : a +:+ "" = a.
Proof. induction a as [|x a IH]; [done|]. by rewrite append_cons, IH. Qed.

Lemma slice_from_0 (s : string) : slice_from 0 s = s.
Proof. by destruct s. Qed.

Lemma slice_from_append (a b : string) (k : nat) :
  slice_from (String.length a + k) (a +:+ b) = slice_from k b.
Proof.
  induction a as [|x a IH]; [done|]. rewrite append_cons. simpl. apply IH.
Qed.

Lemma length_slice_from (k : nat) (s : string) :
  String.length (slice_from k s) = String.length s - k.
Proof.
  revert s. induction k as [|k IH]; intros s.
  - rewrite slice_from_0. lia.
  - destruct s as [|x s]; simpl; [done|]. apply IH.
Qed.

Lemma slice_from_slice_from (j k : nat) (s : string) :
  slice_from j (slice_from k s) = slice_from (k + j) s.
Proof.
  revert s. induction k as [|k IH]; intros s.
  - by rewrite slice_from_0.
  - destruct s as [|x s]; simpl; [by destruct j|]. apply IH.
Qed.

(** The last [n] bytes of [a +:+ b] are those of [b] when [b] has them. *)
Lemma slice_from_last (a b : string) (n : nat) :
  n ≤ String.length b →
  slice_from (String.length (a +:+ b) - n) (a +:+ b)
  = slice_from (String.length b - n) b.
Proof.
  intros Hn. rewrite length_append.
  replace (String.length a + String.length b - n)
    with (String.length a + (String.length b - n)) by lia.
  apply slice_from_append.
Qed.

Lemma chars_slice_from (k : nat) (s : string) (c : ascii) :
  c ∈ chars (slice_from k s) → c ∈ chars s.
Proof.
  revert s. induction k as [|k IH]; intros s.
  - by rewrite slice_from_0.
  - destruct s as [|x s]; simpl; [done|].
    intros Hc. apply list_elem_of_further. by apply IH.
Qed.

(** ** The suffix test *)

Lemma ends_with_own_suffix (name suffix : string) :
  name ≠ "" →
  ends_with (name +:+ suffix) (String.length suffix) suffix = true.
Proof.
  intros Hname. unfold ends_with. apply andb_true_intro. split.
  - apply Nat.ltb_lt. rewrite length_append. destruct name; [done|simpl; lia].
  - apply bool_decide_eq_true. rewrite slice_from_last by done.
    rewrite Nat.sub_diag. apply slice_from_0.
Qed.

(** A path ending in [suffix] does not pass the test for [other] when the
    two differ on the bytes they would have to share. *)
Lemma ends_with_other_suffix (name suffix other : string) :
  let n := String.length suffix `min` String.length other in
  slice_from (String.length suffix - n) suffix
  ≠ slice_from (String.length other - n) other →
  ends_with (name +:+ suffix) (String.length other) other = false.
Proof.
  intros n Hdiff. unfold ends_with.
  destruct (String.length other <? String.length (name +:+ suffix)) eqn:Hlen;
    [|done].
  apply Nat.ltb_lt in Hlen. simpl.
  apply bool_decide_eq_false. intros Heq. apply Hdiff.
  rewrite <-(slice_from_last name suffix n) by lia.
  etrans; [|apply (f_equal (slice_from (String.length other - n)) Heq)].
  rewrite slice_from_slice_from. f_equal. unfold n. lia.
Qed.

(** A name without a '/' passes no test for a suffix that has one. *)
Lemma ends_with_slash_free (name other : string) (n : nat) :
  "/"%char ∉ chars name → "/"%char ∈ chars other →
  ends_with name n other = false.
Proof.
  intros Hname Hother. unfold ends_with.
  destruct (n <? String.length name); [|done]. simpl.
  apply bool_decide_eq_false. intros Heq. apply Hname.
  apply (chars_slice_from (String.length name - n)). by rewrite Heq.
Qed.

(** ** Split *)

Lemma Split_nonempty (s : string) (sep : ascii) : Split s sep ≠ [].
Proof.
  induction s as [|c s IH]; simpl; [done|].
  destruct (decide (c = sep)); [done|]. by destruct (Split s sep).
Qed.

Lemma Split_segment (name rest : string) (sep : ascii) :
  sep ∉ chars name →
  Split (name +:+ String sep rest) sep = name :: Split rest sep.
Proof.
  induction name as [|c name IH]; intros Hname.
  - change ("" +:+ String sep rest) with (String sep rest). simpl.
    by rewrite decide_True.
  - rewrite append_cons. simpl. rewrite decide_False.
    2: { intros ->. apply Hname. left. }
    rewrite IH; [done|]. intros Hc. apply Hname. by right.
Qed.

Lemma Split_last_segment (name : string) (sep : ascii) :
  sep ∉ chars name → Split name sep = [name].
Proof.
  induction name as [|c name IH]; intros Hname; simpl; [done|].
  rewrite decide_False.
  2: { intros ->. apply Hname. left. }
  rewrite IH; [done|]. intros Hc. apply Hname. by right.
Qed.

Lemma pod_segment (name suffix : string) :
  "/"%char ∉ chars name →
  suffix = "" ∨ (∃ rest, suffix = String "/" rest) →
  nth 2 (Split ("/pods/" +:+ name +:+ suffix) "/"%char) "" = name.
Proof.
  intros Hname Hsuffix.
  change ("/pods/" +:+ name +:+ suffix)
    with (String "/" ("pods" +:+ String "/" (name +:+ suffix))).
  cbn [Split]. rewrite decide_True by done.
  rewrite Split_segment.
  2: { change (chars "pods") with ["p"; "o"; "d"; "s"]%char.
       rewrite !not_elem_of_cons. repeat split; try done.
       apply not_elem_of_nil. }
  destruct Hsuffix as [->|[rest ->]].
  - rewrite append_empty. by rewrite Split_last_segment.
  - by rewrite Split_segment.
Qed.

Lemma Split_under_pods (sub : string) :
  Split ("/pods/" +:+ sub) "/"%char = "" :: "pods" :: Split sub "/"%char.
Proof.
  change ("/pods/" +:+ sub) with ("" +:+ String "/" ("pods" +:+ String "/" sub)).
  rewrite Split_segment by apply not_elem_of_nil.
  rewrite Split_segment; [done|].
  change (chars "pods") with ["p"; "o"; "d"; "s"]%char.
  rewrite !not_elem_of_cons. repeat split; try done. apply not_elem_of_nil.
Qed.

Lemma sub_under_pods (sub : string) :
  slice_from (String.length "/pods/") ("/pods/" +:+ sub) = sub.
Proof.
  rewrite <-(Nat.add_0_r (String.length "/pods/")), slice_from_append.
  apply slice_from_0.
Qed.

(** Settles the suffix tests of [podsRoute] on [name +:+ suffix] one by one. *)
Ltac suffix_tests name :=
  repeat match goal with
  | |- context [ends_with ?s ?n ?other] =>
      first
        [ replace (ends_with s n other) with true
            by (symmetry; apply (ends_with_own_suffix name other); done)
        | replace (ends_with s n other) with false
            by (symmetry; apply (ends_with_other_suffix name _ other);
                vm_compute; discriminate) ];
      cbv iota
  end.

(** X15: a pod name that is not empty and has no '/' makes the round trip
    through the router: for each handler under /pods/, the path made of the
    name and the handler's suffix is dispatched to that handler, and the
    third path segment, which the handler takes as the pod name, is the
    name. *)
Theorem pods_route_round_trip (h : pods_handler) (suffix name : string) :
  route_suffix h = Some suffix →
  name ≠ "" → "/"%char ∉ chars name →
  podsRoute ("/pods/" +:+ name +:+ suffix) = h
  ∧ nth 2 (Split ("/pods/" +:+ name +:+ suffix) "/"%char) "" = name.
Proof.
  intros Hh Hname Hslash. split.
  - unfold podsRoute. rewrite sub_under_pods.
    rewrite decide_False.
    2: { destruct name; [done|]. by rewrite append_cons. }
    destruct h; simplify_eq/=.
    1-7: by suffix_tests name.
    rewrite append_empty.
    rewrite !ends_with_slash_free; try done.
    all: change (chars ?s) with (String.list_ascii_of_string s);
      cbn [String.list_ascii_of_string]; left.
  - apply pod_segment; [done|].
    destruct h; simplify_eq/=; eauto.
Qed.

(** X16: every path the mux hands to the closure of /pods/ has at least
    three segments, so the exec handler never answers such a request with
    "Invalid path". *)
Theorem pods_route_has_pod_segment (sub : string) (lib : Lib) (container : string) :
  3 ≤ List.length (Split ("/pods/" +:+ sub) "/"%char)
  ∧ handlePodExecWS lib {| URL_Path := "/pods/" +:+ sub;
                           Query_container := container |}
    ≠ [HttpError "Invalid path" web.StatusBadRequest].
Proof.
  assert (3 ≤ List.length (Split ("/pods/" +:+ sub) "/"%char)) as Hlen.
  { rewrite Split_under_pods. simpl.
    pose proof (Split_nonempty sub "/"%char).
    destruct (Split sub "/"%char); [done|simpl; lia]. }
  split; [done|].
  unfold handlePodExecWS. cbn [URL_Path Query_container].
  destruct (Nat.ltb_spec (List.length (Split ("/pods/" +:+ sub) "/"%char)) 3);
    [lia|].
  destruct (decide (container = "")); [discriminate|].
  destruct (upgrader_Upgrade lib); discriminate.
Qed.

(** X17: the exec handler either answers with one HTTP error and does
    nothing else, or upgrades the socket, then does exactly one thing
    (reports one failure as an output frame, or runs one session for the pod
    of the path, the manager's namespace and the container of the query),
    and closes the connection. *)
Theorem handlePodExecWS_shape (lib : Lib) (r : Request) :
  (∃ body status, handlePodExecWS lib r = [HttpError body status])
  ∨ (∃ data,
       handlePodExecWS lib r = [Upgraded; WriteJSON (output_frame data); ConnClose])
  ∨ handlePodExecWS lib r
    = [Upgraded; ExecSession (pod_name r) (manager_Namespace lib) (Query_container r);
       ConnClose].
Proof.
  unfold handlePodExecWS, pod_name.
  destruct (_ <? 3); [left; by eexists _, _|].
  destruct (decide (Query_container r = "")); [left; by eexists _, _|].
  destruct (upgrader_Upgrade lib); [|left; by eexists _, _].
  right.
  destruct (manager_RESTConfig lib); [|left; by eexists].
  destruct (remotecommand_NewSPDYExecutor lib); [|left; by eexists].
  by right.
Qed.

Lemma pods_route_round_trip_witness :
  podsRoute ("/pods/" +:+ "web-1" +:+ "/exec/ws") = PodExecWS
  ∧ nth 2 (Split ("/pods/" +:+ "web-1" +:+ "/exec/ws") "/"%char) "" = "web-1".
Proof.
  apply (pods_route_round_trip PodExecWS "/exec/ws" "web-1").
  - reflexivity.
  - discriminate.
  - vm_compute. intros Hin. apply list_elem_of_In in Hin. simpl in Hin.
    repeat (destruct Hin as [Hin|Hin]; [discriminate|]). exact Hin.
Defined.

End routes_spec.

(** * More on the running exec session *)
Module session_spec.
Import web web_spec session.

Lemma newSession_release_inv : release_inv newSession.
Proof. split; simpl; try done. by left. Qed.

Lemma final_frame_output (err : option error) : Type_ (final_frame err) = "output".
Proof. by destruct err. Qed.

Lemma step_release_inv s e s' :
  session_inv s → release_inv s → step s e = Some s' → release_inv s'.
Proof.
  intros Hinv Hrel Hstep.
  pose proof (inv_cap s Hinv) as Hcap.
  destruct e; step_cases Hstep; destruct Hrel; split; simpl in *; try done.
  all: repeat match goal with H : handler _ = _ |- _ => rewrite H in * end;
    simpl in *; try done; try congruence.
  all: try (rewrite elem_of_app; auto; fail).
  all: try (rewrite elem_of_app, list_elem_of_singleton; auto; fail).
  all: try (apply Forall_app; split; [done|]; repeat constructor;
            auto using final_frame_output; fail).
  all: try (rewrite app_nil_r; done).
  all: try (destruct inv_first0 as [[Happ Hbuf]|[rest Happ]];
            [|right; rewrite Happ; by eexists]).
  all: try (left; split; [done|]).
  all: try (match goal with
            | H : chan_buf _ = _ :: _, H' : chan_buf _ = [_] |- _ =>
                rewrite H in H'; injection H' as -> ->
            end).
  all: try (right; rewrite Happ; by eexists).
  all: try (match goal with
            | H : (_ <? _) = true, H' : chan_buf _ = [_] |- _ =>
                rewrite H', Hcap in H; discriminate
            end).
  all: try (match goal with
            | H : chan_buf _ = [], H' : chan_buf _ = [_] |- _ =>
                rewrite H in H'; discriminate
            end).
Qed.

Lemma run_release_inv tr : ∀ s s',
  session_inv s → release_inv s → run s tr = Some s' → release_inv s'.
Proof.
  induction tr as [|e tr IH]; intros s s' Hinv Hrel; simpl.
  - by intros [= <-].
  - destruct (step s e) as [s1|] eqn:Hstep; [|done].
    apply IH; [by eapply step_inv|by eapply step_release_inv].
Qed.

Lemma reachable_release_inv s : reachable s → release_inv s.
Proof.
  intros [tr Hrun].
  eapply run_release_inv; [apply newSession_inv|apply newSession_release_inv|done].
Qed.

(** X18: when the handler has returned, the session holds nothing open:
    [done] is closed, both pipe ends the handler closes and the stdin writer
    are closed, both pumps have returned, and the final frame for the
    stream's outcome is among the frames sent. *)
Theorem returned_session_is_released tr s :
  run newSession tr = Some s → handler s = Returned →
  done s = true
  ∧ stdinReader_closed s = true
  ∧ stdoutWriter_closed s = true
  ∧ stdinWriter_closed s = true
  ∧ inbound s = InboundExited
  ∧ outbound s = OutboundExited
  ∧ final_frame (stream_err s) ∈ sent s.
Proof.
  intros Hrun Hret.
  assert (reachable s) as Hs by by exists tr.
  pose proof (reachable_inv s Hs) as Hinv.
  pose proof (reachable_release_inv s Hs) as Hrel.
  destruct (inv_returned s Hinv Hret) as [Hin Hout].
  split; [by rewrite (inv_done s Hinv), Hret|].
  split; [by rewrite (inv_stdin_reader s Hrel), Hret|].
  split; [by rewrite (inv_stdout_writer s Hrel), Hret|].
  split; [by apply (inv_exit_closes s Hinv)|].
  split; [done|]. split; [done|].
  apply (inv_final s Hrel). by rewrite Hret.
Qed.

(** X19: every frame the bridge hands to [conn.WriteJSON] has type output,
    the final frame included. *)
Theorem sent_frames_are_output tr s :
  run newSession tr = Some s →
  Forall (λ frame, Type_ frame = "output") (sent s).
Proof.
  intros Hrun. apply reachable_release_inv. by exists tr.
Qed.

(** X20: the size channel never holds more than one value, and the first
    size the transport gets from [Next] is the initial 120x30, whatever the
    client has sent before. *)
Theorem first_size_is_initial tr s :
  run newSession tr = Some s →
  List.length (chan_buf (sizeChan s)) ≤ 1
  ∧ (applied s = [] ∨ ∃ rest, applied s = Some initial_size :: rest).
Proof.
  intros Hrun. assert (reachable s) as Hs by by exists tr.
  split; [apply (inv_buf s (reachable_inv s Hs))|].
  destruct (inv_first s (reachable_release_inv s Hs)) as [[? _]|?]; auto.
Qed.

Lemma step_stdin_frozen s e s' :
  stdinReader_closed s = true → step s e = Some s' →
  stdinReader_closed s' = true ∧ stdin s' = stdin s.
Proof. intros Hclosed Hstep. destruct e; step_cases Hstep. Qed.

(** X21: once the handler has closed the read end of the stdin pipe,
    nothing the client sends reaches the transport: the input the transport
    has read stays what it was in every continuation. *)
Theorem stdin_frozen_after_close tr : ∀ s s',
  stdinReader_closed s = true → run s tr = Some s' →
  stdinReader_closed s' = true ∧ stdin s' = stdin s.
Proof.
  induction tr as [|e tr IH]; intros s s' Hclosed; simpl.
  - by intros [= <-].
  - destruct (step s e) as [s1|] eqn:Hstep; [|done].
    destruct (step_stdin_frozen s e s1 Hclosed Hstep) as [Hclosed1 Hstdin1].
    intros Hrun. destruct (IH s1 s' Hclosed1 Hrun) as [? ?].
    split; [done|congruence].
Qed.

(** X22: input frames reach the transport in the order the client sent
    them and with their payloads unchanged: after the frames [payloads],
    each read by the transport in turn, the transport has read [payloads]
    after what it had read before, and nothing else in the session has
    changed. *)
Theorem input_reaches_stdin_in_order (payloads : list string) : ∀ s,
  inbound s = InReadMessage → done s = false → stdinReader_closed s = false →
  run s (typing payloads) = Some (set_stdin (stdin s ++ payloads) s).
Proof.
  induction payloads as [|data payloads IH]; intros s Hin Hdone Hopen.
  - simpl. rewrite app_nil_r. by destruct s.
  - unfold typing. rewrite bind_cons. fold (typing payloads).
    cbn [app run].
    unfold step at 1. rewrite Hin. cbn [inbound_read inbound_message input_frame].
    rewrite decide_True by done. cbn [Type_ Data]. rewrite Hopen.
    unfold step at 1. cbn [inbound set_inbound stdinReader_closed].
    rewrite Hopen.
    unfold step at 1. cbn [inbound set_inbound set_stdin].
    unfold inbound_select. cbn [done set_inbound set_stdin]. rewrite Hdone.
    rewrite IH; [|done..].
    f_equal. destruct s; simpl in *. subst. by rewrite <-app_assoc.
Qed.

Lemma returned_session_is_released_witness :
  let tr := [InboundSelect; ConnRead ConnReadErr; OutboundRead ReadErr true;
             StreamReturns None; HandlerStep; HandlerStep; HandlerStep;
             HandlerStep; HandlerStep] in
  ∃ s, run newSession tr = Some s ∧ handler s = Returned
    ∧ done s = true
    ∧ stdinReader_closed s = true
    ∧ stdoutWriter_closed s = true
    ∧ stdinWriter_closed s = true
    ∧ inbound s = InboundExited
    ∧ outbound s = OutboundExited
    ∧ final_frame (stream_err s) ∈ sent s.
Proof.
  cbv zeta. eexists. split; [vm_compute; reflexivity|].
  split; [reflexivity|].
  apply (returned_session_is_released
           [InboundSelect; ConnRead ConnReadErr; OutboundRead ReadErr true;
            StreamReturns None; HandlerStep; HandlerStep; HandlerStep;
            HandlerStep; HandlerStep]);
    [vm_compute; reflexivity|reflexivity].
Defined.

Lemma sent_frames_are_output_witness :
  ∃ s, run newSession [OutboundRead (ReadOk "hi") true; StreamReturns None;
                       HandlerStep; HandlerStep; HandlerStep; HandlerStep]
       = Some s
    ∧ Forall (λ frame, Type_ frame = "output") (sent s).
Proof.
  eexists. split; [vm_compute; reflexivity|].
  apply (sent_frames_are_output
           [OutboundRead (ReadOk "hi") true; StreamReturns None;
            HandlerStep; HandlerStep; HandlerStep; HandlerStep]).
  vm_compute; reflexivity.
Defined.

Lemma first_size_is_initial_witness :
  ∃ s, run newSession [InboundSelect; ConnRead (ConnMessage (resize_frame 24 80));
                       TransportNext] = Some s
    ∧ List.length (chan_buf (sizeChan s)) ≤ 1
    ∧ (applied s = [] ∨ ∃ rest, applied s = Some initial_size :: rest).
Proof.
  eexists. split; [vm_compute; reflexivity|].
  apply (first_size_is_initial
           [InboundSelect; ConnRead (ConnMessage (resize_frame 24 80));
            TransportNext]).
  vm_compute; reflexivity.
Defined.

Lemma stdin_frozen_after_close_witness :
  ∃ s s',
    run newSession [InboundSelect; StreamReturns None; HandlerStep; HandlerStep]
    = Some s
    ∧ run s [ConnRead (ConnMessage (input_frame "rm -rf /")); InboundSelect]
      = Some s'
    ∧ stdinReader_closed s' = true ∧ stdin s' = stdin s.
Proof.
  eexists _, _. split; [vm_compute; reflexivity|].
  split; [vm_compute; reflexivity|].
  apply (stdin_frozen_after_close
           [ConnRead (ConnMessage (input_frame "rm -rf /")); InboundSelect]);
    [reflexivity|vm_compute; reflexivity].
Defined.

Lemma input_reaches_stdin_in_order_witness :
  let s := set_inbound InReadMessage newSession in
  run s (typing ["ls"; "cd /tmp"; "exit"])
  = Some (set_stdin (stdin s ++ ["ls"; "cd /tmp"; "exit"]) s).
Proof.
  cbv zeta. apply input_reaches_stdin_in_order; reflexivity.
Defined.

End session_spec.

(** * The pod views *)
Module pods_spec.
Import pods fixtures.

Local Open Scope Z_scope.

Lemma containerViews_from (views : list PodContainerView)
    (containers : list Container) (statuses : list ContainerStatus) :
  foldl (λ views c,
           let '(restarts, ready) := first_status (Name c) statuses in
           views ++ [{| viewName := Name c; viewImage := Image c;
                        viewReady := ready; viewRestarts := restarts |}])
        views containers
  = views ++ (view_of statuses <$> containers).
Proof.
  revert views. induction containers as [|c containers IH]; intros views; simpl.
  - by rewrite app_nil_r.
  - rewrite IH. unfold view_of at 2.
    destruct (first_status (Name c) statuses). by rewrite <-app_assoc.
Qed.

Lemma first_status_none (name : string) (statuses : list ContainerStatus) :
  Forall (λ status, statusName status ≠ name) statuses →
  first_status name statuses = (0, false).
Proof.
  induction 1 as [|status statuses Hstatus _ IH]; simpl; [done|].
  by rewrite decide_False.
Qed.

Lemma first_status_first (name : string) (before after : list ContainerStatus)
    (status : ContainerStatus) :
  Forall (λ status, statusName status ≠ name) before →
  statusName status = name →
  first_status name (before ++ status :: after)
  = (RestartCount status, Ready status).
Proof.
  intros Hbefore Hname.
  induction Hbefore as [|other before Hother _ IH]; simpl.
  - by rewrite decide_True.
  - by rewrite decide_False.
Qed.

(** X23: the pod detail page lists one view per container of the spec, in
    the order of the spec and with its name and image, and a container that
    no status bears the name of shows as not ready with no restarts. *)
Theorem containerViews_follow_spec (containers : list Container)
    (statuses : list ContainerStatus) (c : Container) (i : nat) :
  containers !! i = Some c →
  Forall (λ status, statusName status ≠ Name c) statuses →
  (viewName <$> containerViews containers statuses) = (Name <$> containers)
  ∧ (viewImage <$> containerViews containers statuses) = (Image <$> containers)
  ∧ containerViews containers statuses !! i
    = Some {| viewName := Name c; viewImage := Image c;
              viewReady := false; viewRestarts := 0 |}.
Proof.
  intros Hc Hnone. unfold containerViews. rewrite containerViews_from. simpl.
  split; [by rewrite <-list_fmap_compose|].
  split; [by rewrite <-list_fmap_compose|].
  rewrite list_lookup_fmap, Hc. simpl. unfold view_of.
  by rewrite first_status_none.
Qed.

(** X24: a container's view takes restart count and readiness from the
    first status that bears its name; statuses of that name further down
    the list are ignored. *)
Theorem containerViews_first_status_wins (containers : list Container)
    (before after : list ContainerStatus) (status : ContainerStatus)
    (c : Container) (i : nat) :
  containers !! i = Some c →
  Forall (λ status, statusName status ≠ Name c) before →
  statusName status = Name c →
  containerViews containers (before ++ status :: after) !! i
  = Some {| viewName := Name c; viewImage := Image c;
            viewReady := Ready status; viewRestarts := RestartCount status |}.
Proof.
  intros Hc Hbefore Hname. unfold containerViews. rewrite containerViews_from.
  simpl. rewrite list_lookup_fmap, Hc. simpl. unfold view_of.
  by rewrite first_status_first.
Qed.

(** ** totalRestarts *)

Lemma int32_range (z : Z) : in_int32 (int32 z).
Proof.
  unfold in_int32, int32.
  pose proof (Z.mod_pos_bound (z + 2 ^ 31) (2 ^ 32)). lia.
Qed.

Lemma int32_id (z : Z) : in_int32 z → int32 z = z.
Proof.
  unfold in_int32, int32. intros Hz.
  rewrite Z.mod_small by lia. lia.
Qed.

Lemma totalRestarts_from (restarts : Z) (statuses : list ContainerStatus) :
  Forall (λ s, 0 ≤ RestartCount s) statuses →
  0 ≤ restarts → restarts + restart_sum statuses < 2 ^ 31 →
  foldl (λ restarts s, int32 (restarts + RestartCount s)) restarts statuses
  = restarts + restart_sum statuses.
Proof.
  intros Hpos. revert restarts.
  induction Hpos as [|s statuses Hs Hpos IH]; intros restarts Hr Hsum; simpl in *.
  - lia.
  - assert (0 ≤ restart_sum statuses) as Hrest.
    { clear -Hpos. induction Hpos; simpl; lia. }
    rewrite int32_id by (unfold in_int32; lia).
    rewrite IH; lia.
Qed.

(** X25: [totalRestarts] always lies in the int32 range, and it is the sum
    of the restart counts whenever these are not negative and their sum is
    below 2^31 (beyond that the int32 addition wraps). *)
Theorem totalRestarts_is_sum (statuses : list ContainerStatus) :
  Forall (λ s, 0 ≤ RestartCount s) statuses →
  restart_sum statuses < 2 ^ 31 →
  in_int32 (totalRestarts statuses)
  ∧ totalRestarts statuses = restart_sum statuses.
Proof.
  intros Hpos Hsum.
  assert (totalRestarts statuses = restart_sum statuses) as ->.
  { unfold totalRestarts. rewrite totalRestarts_from; [lia|done|lia|lia]. }
  split; [|done].
  assert (0 ≤ restart_sum statuses).
  { clear -Hpos. induction Hpos; simpl; lia. }
  unfold in_int32. lia.
Qed.

Lemma containerViews_follow_spec_witness :
  let containers := [app_container; sidecar] in
  let statuses := [app_status; stale_app_status] in
  (viewName <$> containerViews containers statuses) = (Name <$> containers)
  ∧ (viewImage <$> containerViews containers statuses) = (Image <$> containers)
  ∧ containerViews containers statuses !! 1%nat
    = Some {| viewName := "sidecar"; viewImage := "envoy:v1.31";
              viewReady := false; viewRestarts := 0 |}.
Proof.
  cbv zeta.
  apply (containerViews_follow_spec [app_container; sidecar]
           [app_status; stale_app_status] sidecar 1).
  - reflexivity.
  - repeat constructor; discriminate.
Defined.

Lemma containerViews_first_status_wins_witness :
  containerViews [app_container; sidecar] ([] ++ app_status :: [stale_app_status])
    !! 0%nat
  = Some {| viewName := "app"; viewImage := "nginx:1.27";
            viewReady := true; viewRestarts := 3 |}.
Proof.
  apply (containerViews_first_status_wins [app_container; sidecar]
           [] [stale_app_status] app_status app_container 0).
  - reflexivity.
  - constructor.
  - reflexivity.
Defined.

Lemma totalRestarts_is_sum_witness :
  in_int32 (totalRestarts [app_status; stale_app_status])
  ∧ totalRestarts [app_status; stale_app_status]
    = restart_sum [app_status; stale_app_status].
Proof.
  apply totalRestarts_is_sum.
  - repeat constructor; simpl; lia.
  - simpl. lia.
Defined.

End pods_spec.
